(** * Task orchestration engine: a shallow embedding and its properties

    The development follows the TypeScript sources:
    - [types/index.ts]          the data model (Task, TaskStep, ToolResult, ...);
    - [utils/retry.ts]          [isRetryableError], [withRetry], [CircuitBreaker];
    - [utils/id.ts]             [generateId], [isValidId], [getIdPrefix];
    - [tools/registry.ts]       [ToolRegistry]: registration, lookup, [execute],
                                [toOpenAIFunctions];
    - [tools/builtin/index.ts]  the helpers [getNestedValue], [flattenObject];
    - [agents/base.ts]          [BaseAgent]: [execute], [executeStep],
                                [resolveParameters], [aggregateResults];
    - [agents/automation-agent.ts]  [AutomationAgent]: [plan],
                                [convertPlanToSteps], [createSimplePlan].

    Conventions of the embedding.
    - A JavaScript value ([unknown]) is a [value]; numbers are integers ([Z]),
      no claim below depends on fractional arithmetic.
    - A string is the sequence of its UTF-16 code units; the embedding has
      the code units below 256 (Latin-1).
    - A plain object is the list of its own enumerable entries in
      [Object.entries] order, and its prototype is [Object.prototype]:
      [has_in] is the operator [in], true of the own names and of the names
      every object inherits; [obj_set] is the assignment [o[k] = v] for a
      name other than [__proto__].
    - [Map<string, _>] of the execution context is a [gmap string _]; the
      registry's [Map] is kept as a list because [getNames]/[getAll] expose
      its insertion order.
    - A computation that may throw returns an [Outcome]; [async]/[await] is
      sequential here (every promise is awaited where it is created).
    - Calls to the logger have no effect on any value and are left out. *)

From Stdlib Require Import ZArith String Ascii List Bool Lia.
From stdpp Require Import base option gmap strings list fin_maps pretty.
Import ListNotations.

Set Warnings "-register-all".

Local Open Scope string_scope.
Local Open Scope Z_scope.

(* ===================================================================== *)
(** ** JavaScript values and objects *)
(* ===================================================================== *)

Inductive value : Type :=
| VUndefined
| VNull
| VBool (b : bool)
| VNum (n : Z)
| VStr (s : string)
| VArr (items : list value)
| VObj (fields : list (string * value)).

(** [Record<string, unknown>] *)
Abbreviation Params := (list (string * value)).

Module Js.

(** [Object.hasOwn(o, k)]: [k] is the name of an own property of [o]. *)
Fixpoint obj_has (k : string) (o : Params) : bool :=
  match o with
  | [] => false
  | (k', _) :: o' => if String.eqb k k' then true else obj_has k o'
  end.

(** [o[k]]; [undefined] when the property is absent. *)
Fixpoint obj_get (k : string) (o : Params) : value :=
  match o with
  | [] => VUndefined
  | (k', v) :: o' => if String.eqb k k' then v else obj_get k o'
  end.

(** The names of the properties of [Object.prototype] in Node.js, the
    runtime of the program: every plain object inherits them. *)
Definition Object_prototype : list string :=
  ["constructor"; "__defineGetter__"; "__defineSetter__"; "hasOwnProperty";
   "__lookupGetter__"; "__lookupSetter__"; "isPrototypeOf";
   "propertyIsEnumerable"; "toString"; "valueOf"; "__proto__";
   "toLocaleString"].

Definition inherited (k : string) : bool :=
  existsb (String.eqb k) Object_prototype.

(** [k in o] for a plain object: an own property, or one it inherits. *)
Definition has_in (k : string) (o : Params) : bool :=
  obj_has k o || inherited k.

(** [o[k] = v] for a name [k] other than [__proto__]: overwrite in place, or
    add the property at the end.  (Under the name [__proto__] the assignment
    runs the setter of [Object.prototype] and adds no entry; integer-like
    names, which JavaScript enumerates first, keep their place in the list
    here.) *)
Fixpoint obj_set (k : string) (v : value) (o : Params) : Params :=
  match o with
  | [] => [(k, v)]
  | (k', v') :: o' =>
      if String.eqb k k' then (k, v) :: o' else (k', v') :: obj_set k v o'
  end.

(** The object built by the assignments [o[k] = v] of a loop, in order. *)
Definition assign_all (entries : Params) (o : Params) : Params :=
  fold_left (fun acc kv => obj_set (fst kv) (snd kv) acc) entries o.

(** [Object.entries] of an array: its indices, as decimal strings. *)
Fixpoint array_entries_from (i : nat) (items : list value) : Params :=
  match items with
  | [] => []
  | x :: items' => (pretty i, x) :: array_entries_from (S i) items'
  end.

Definition array_entries (items : list value) : Params :=
  array_entries_from 0 items.

(** [s.startsWith(p)] *)
Definition startsWith (s p : string) : bool := String.prefix p s.

(** [s.slice(1)] *)
Definition slice1 (s : string) : string :=
  match s with
  | EmptyString => EmptyString
  | String _ rest => rest
  end.

(** [s.includes(p)] *)
Definition includes (s p : string) : bool :=
  match String.index 0 p s with
  | Some _ => true
  | None => false
  end.

(** [a ?? b] *)
Definition nullish (a b : value) : value :=
  match a with
  | VUndefined | VNull => b
  | _ => a
  end.

(** [m.get(k)] on a [Map<string, unknown>] *)
Definition map_get (m : gmap string value) (k : string) : value :=
  match m !! k with
  | Some v => v
  | None => VUndefined
  end.

End Js.

(* ===================================================================== *)
(** ** Thrown values *)
(* ===================================================================== *)

(** The classes of [Error] the sources distinguish with [instanceof]. *)
Inductive ErrorClass : Type :=
| PlainError      (* Error, and any subclass the sources do not test for *)
| AbortError      (* p-retry's AbortError *)
| ZodError.       (* thrown by a zod schema's parse *)

Inductive Thrown : Type :=
| ThrowError (cls : ErrorClass) (message : string)
| ThrowValue (v : value).          (* [throw] of something that is no Error *)

Inductive Outcome (A : Type) : Type :=
| Ok (a : A)
| Throw (e : Thrown).
Arguments Ok {A} a.
Arguments Throw {A} e.

(** [error instanceof Error ? error.message : fallback] *)
Definition messageOr (fallback : string) (e : Thrown) : string :=
  match e with
  | ThrowError _ m => m
  | ThrowValue _ => fallback
  end.

(* ===================================================================== *)
(** ** Parameter resolution ([BaseAgent.resolveParameters]) *)
(* ===================================================================== *)

Module Resolver.
Import Js.

(** One iteration of the loop body, as a function of the entry's value:
    what is assigned to [resolved[key]].  An array passes the test
    [typeof value === 'object' && value !== null], so the recursive call
    receives it and enumerates its indices. *)
Fixpoint resolveValue (variables : gmap string value) (v : value) : value :=
  match v with
  | VStr s =>
      if startsWith s "$"
      then nullish (map_get variables (slice1 s)) v
      else v
  | VObj fields =>
      VObj (assign_all
              (map (fun kv => (fst kv, resolveValue variables (snd kv))) fields)
              [])
  | VArr items =>
      VObj (assign_all
              (array_entries (map (resolveValue variables) items))
              [])
  | _ => v
  end.

Definition resolveParameters (params : Params) (variables : gmap string value)
  : Params :=
  assign_all
    (map (fun kv => (fst kv, resolveValue variables (snd kv))) params) [].

(** No string of the value, at any depth, begins with the sigil. *)
Fixpoint noReferences (v : value) : bool :=
  match v with
  | VStr s => negb (startsWith s "$")
  | VArr items => forallb noReferences items
  | VObj fields => forallb (fun kv => noReferences (snd kv)) fields
  | _ => true
  end.

(** No array occurs in the value, at any depth. *)
Fixpoint noArrays (v : value) : bool :=
  match v with
  | VArr _ => false
  | VObj fields => forallb (fun kv => noArrays (snd kv)) fields
  | _ => true
  end.

(** No name occurs twice. *)
Fixpoint distinctKeys (ks : list string) : bool :=
  match ks with
  | [] => true
  | k :: rest => negb (existsb (String.eqb k) rest) && distinctKeys rest
  end.

(** The value is one JavaScript can hold: an object has each of its
    property names once. *)
Fixpoint wellFormed (v : value) : bool :=
  match v with
  | VArr items => forallb wellFormed items
  | VObj fields =>
      distinctKeys (map fst fields)
      && forallb (fun kv => wellFormed (snd kv)) fields
  | _ => true
  end.

End Resolver.

(* ===================================================================== *)
(** ** Resilience layer ([utils/retry.ts]) *)
(* ===================================================================== *)

Module Retry.
Import Js.

Record RetryOptions : Type := {
  retries : nat;
  minTimeout : Z;
  maxTimeout : option Z;
  factor : option Z
}.

Definition isRetryableError (error : Thrown) : bool :=
  match error with
  | ThrowError AbortError _ => false
  | ThrowError _ message =>
      if includes message "ECONNRESET" || includes message "ETIMEDOUT" then true
      else if includes message "429" || includes message "rate limit" then true
      else if includes message "500" || includes message "502"
              || includes message "503" then true
      else if includes message "overloaded" || includes message "capacity" then true
      else false
  | ThrowValue _ => false
  end.

Section WithResult.
Context {T : Type}.

(** An operation [() => Promise<T>] may settle differently each time it
    is invoked: [operation n] is what its [n]-th invocation settles to
    (counting from 1). *)
Definition Operation : Type := nat -> Outcome T.

(** What a run of the retry loop leaves behind. *)
Record RetryRun : Type := {
  settled : Outcome T;           (* what the returned promise settles to *)
  invocations : nat;             (* how often the operation was invoked *)
  failedAttempts : list nat      (* attempt numbers given to onFailedAttempt *)
}.

(** Modelled from the spec: [pRetry] of the npm package p-retry, a
    dependency whose code is not part of the repository.  It calls
    [input] up to [retries + 1] times: a fulfilled attempt settles the
    run; an [AbortError] stops it at once and rejects with the error it
    wraps; any other error is reported to [onFailedAttempt] and retried
    while budget is left, the last one being surfaced when the budget is
    exhausted.  A thrown non-Error is rejected as a TypeError.  The
    pauses between attempts (minTimeout, maxTimeout, factor) take time
    only and are not represented. *)
Fixpoint pRetry_attempt (input : nat -> Outcome T)
         (attemptNumber retriesLeft : nat) (reported : list nat) : RetryRun :=
  match input attemptNumber with
  | Ok v =>
      {| settled := Ok v; invocations := attemptNumber;
         failedAttempts := reported |}
  | Throw (ThrowValue _) =>
      {| settled := Throw (ThrowError PlainError
                             "Non-error was thrown. You should only throw errors.");
         invocations := attemptNumber; failedAttempts := reported |}
  | Throw (ThrowError AbortError message) =>
      {| settled := Throw (ThrowError PlainError message);
         invocations := attemptNumber; failedAttempts := reported |}
  | Throw error =>
      let reported' := (reported ++ [attemptNumber])%list in
      match retriesLeft with
      | O => {| settled := Throw error; invocations := attemptNumber;
                failedAttempts := reported' |}
      | S budget => pRetry_attempt input (S attemptNumber) budget reported'
      end
  end.

Definition pRetry (input : nat -> Outcome T) (retries : nat) : RetryRun :=
  pRetry_attempt input 1 retries [].

(** The function [withRetry] hands to [pRetry]: it invokes the operation
    once and re-throws what it threw, wrapped in an [AbortError] when it
    is not retryable. *)
Definition guarded (operation : Operation) : nat -> Outcome T :=
  fun attempt =>
    match operation attempt with
    | Ok v => Ok v
    | Throw error =>
        if negb (isRetryableError error)
        then Throw (ThrowError AbortError
                      (messageOr "Non-retryable error" error))
        else Throw error
    end.

Definition withRetry (operation : Operation) (options : RetryOptions) : RetryRun :=
  pRetry (guarded operation) (retries options).

(** The [n]-th invocation fails with an error classified as retryable. *)
Definition failsRetryably (operation : Operation) (n : nat) : Prop :=
  exists e, operation n = Throw e /\ isRetryableError e = true.

(** The [n]-th invocation fails with an error that is not. *)
Definition failsFatally (operation : Operation) (n : nat) : Prop :=
  exists e, operation n = Throw e /\ isRetryableError e = false.

(** An attempt that [pRetry] retries while budget is left. *)
Definition retried (input : nat -> Outcome T) (n : nat) : Prop :=
  exists cls m, input n = Throw (ThrowError cls m) /\ cls <> AbortError.

End WithResult.
Arguments Operation T : clear implicits.
Arguments RetryRun T : clear implicits.

End Retry.

Module CircuitBreaker.

Record CircuitBreakerOptions : Type := {
  failureThreshold : nat;
  resetTimeoutMs : Z
}.

Inductive CircuitState : Type := closed | open | half_open.

Record CircuitBreaker : Type := {
  state : CircuitState;
  failures : nat;
  lastFailureTime : option Z;
  options : CircuitBreakerOptions
}.

(** [new CircuitBreaker(options)] *)
Definition new (opts : CircuitBreakerOptions) : CircuitBreaker :=
  {| state := closed; failures := 0; lastFailureTime := None; options := opts |}.

Definition set_state (s : CircuitState) (cb : CircuitBreaker) : CircuitBreaker :=
  {| state := s; failures := failures cb;
     lastFailureTime := lastFailureTime cb; options := options cb |}.

(** [now] is the reading of [Date.now()]. *)
Definition shouldAttemptReset (cb : CircuitBreaker) (now : Z) : bool :=
  match lastFailureTime cb with
  | None => true
  | Some t => resetTimeoutMs (options cb) <=? now - t
  end.

Definition onSuccess (cb : CircuitBreaker) : CircuitBreaker :=
  {| state := closed; failures := 0;
     lastFailureTime := lastFailureTime cb; options := options cb |}.

(** [now] is the reading of [new Date()]. *)
Definition onFailure (cb : CircuitBreaker) (now : Z) : CircuitBreaker :=
  let failures' := S (failures cb) in
  {| state := if (failureThreshold (options cb) <=? failures')%nat
              then open else state cb;
     failures := failures';
     lastFailureTime := Some now;
     options := options cb |}.

Section WithResult.
Context {T : Type}.

(** One call of [execute]: the clock when it is entered, what the
    wrapped operation settles to if it is invoked, and the clock when it
    has settled. *)
Record Call : Type := {
  enteredAt : Z;
  operation : Outcome T;
  settledAt : Z
}.

Record Report : Type := {
  result : Outcome T;
  attemptedIn : option CircuitState;  (* breaker state when the operation
                                         was invoked; None: not invoked *)
  breaker : CircuitBreaker
}.

Definition execute (cb : CircuitBreaker) (c : Call) : Report :=
  let gate :=
    match state cb with
    | open =>
        if shouldAttemptReset cb (enteredAt c)
        then Ok (set_state half_open cb)
        else Throw (ThrowError PlainError "Circuit breaker is open")
    | _ => Ok cb
    end in
  match gate with
  | Throw e => {| result := Throw e; attemptedIn := None; breaker := cb |}
  | Ok cb1 =>
      match operation c with
      | Ok r =>
          {| result := Ok r; attemptedIn := Some (state cb1);
             breaker := onSuccess cb1 |}
      | Throw error =>
          {| result := Throw error; attemptedIn := Some (state cb1);
             breaker := onFailure cb1 (settledAt c) |}
      end
  end.

(** A sequence of calls on the same breaker. *)
Definition executeAll (cb : CircuitBreaker) (calls : list Call) : CircuitBreaker :=
  fold_left (fun b c => breaker (execute b c)) calls cb.

Definition fails (c : Call) : Prop :=
  match operation c with Throw _ => True | Ok _ => False end.

End WithResult.
Arguments Call T : clear implicits.
Arguments Report T : clear implicits.

(** Whether the operation of a call fails. *)
Definition failing {T : Type} (c : Call T) : bool :=
  match operation c with Throw _ => true | Ok _ => false end.

(** No [threshold] calls in a row fail, given that the [run] calls just
    before failed. *)
Fixpoint staysBelow {T : Type} (threshold run : nat) (calls : list (Call T)) : bool :=
  match calls with
  | [] => true
  | c :: rest =>
      let run' := if failing c then S run else 0%nat in
      (run' <? threshold)%nat && staysBelow threshold run' rest
  end.

(** The number of failing calls at the end of the list, after [run]. *)
Fixpoint trailingFailures {T : Type} (run : nat) (calls : list (Call T)) : nat :=
  match calls with
  | [] => run
  | c :: rest => trailingFailures (if failing c then S run else 0%nat) rest
  end.

(** What holds of a breaker between two calls. *)
Definition settledBreaker (cb : CircuitBreaker) : Prop :=
  state cb <> half_open
  /\ (state cb = open ->
      (failureThreshold (options cb) <= failures cb)%nat
      /\ is_Some (lastFailureTime cb)).

End CircuitBreaker.

(* ===================================================================== *)
(** ** Data model ([types/index.ts]) *)
(* ===================================================================== *)

(** The [Date] fields (createdAt, startedAt, completedAt, an event's
    timestamp) only record the clock and are left out of the records. *)

Inductive TaskStatus : Type :=
| pending | planning | executing | completed | failed | cancelled.

Inductive TaskPriority : Type := low | medium | high | critical.

Record TaskInput : Type := {
  description : string;
  priority : TaskPriority;
  context : option Params;
  maxSteps : Z;
  timeoutMs : Z
}.

Record TaskStep : Type := {
  step_id : string;
  step_name : string;
  step_description : string;
  toolName : string;
  parameters : Params;
  step_status : TaskStatus;
  step_result : value;             (* [VUndefined]: no result *)
  step_error : option string
}.

Record Task : Type := {
  task_id : string;
  input : TaskInput;
  status : TaskStatus;
  steps : list TaskStep;
  task_result : value;
  task_error : option string;
  task_metadata : Params
}.

Record ToolResult : Type := {
  success : bool;
  data : value;                    (* [VUndefined]: no payload *)
  error : option string;
  metadata : option Params
}.

Record ToolParameter : Type := {
  param_name : string;
  param_type : string;
  param_description : string;
  required : bool;
  default : value                  (* [VUndefined]: no default *)
}.

(** What invoking a tool's capability comes to: how long the promise takes
    to settle and what it settles to.  Tools are functions of their
    parameters. *)
Record ToolRun : Type := {
  elapsedMs : Z;
  outcome : Outcome ToolResult
}.

Record ToolDefinition : Type := {
  tool_name : string;
  tool_description : string;
  tool_parameters : list ToolParameter;
  tool_execute : Params -> ToolRun
}.

Record PlannedStep : Type := {
  plan_name : string;
  plan_description : string;
  plan_toolName : string;
  plan_parameters : Params
}.

Record PlanningResult : Type := {
  plan_steps : list PlannedStep;
  reasoning : string
}.

Record ExecutionContext : Type := {
  taskId : string;
  stepResults : gmap string ToolResult;
  variables : gmap string value
}.

Inductive EventType : Type :=
| task_created | task_started | task_planning | task_planned
| step_started | step_completed | step_failed
| task_completed | task_failed.

Record AgentEvent : Type := {
  event_type : EventType;
  event_taskId : string;
  event_data : Params
}.

Definition EventHandler : Type := AgentEvent -> Outcome unit.

Definition TaskStatus_eqb (a b : TaskStatus) : bool :=
  match a, b with
  | pending, pending | planning, planning | executing, executing
  | completed, completed | failed, failed | cancelled, cancelled => true
  | _, _ => false
  end.

Definition is_undefined (v : value) : bool :=
  match v with VUndefined => true | _ => false end.

(** An optional string as the value a property holds. *)
Definition optional_string (o : option string) : value :=
  match o with Some s => VStr s | None => VUndefined end.

Module Schema.
Import Js.

Definition parsePriority (v : value) : option TaskPriority :=
  match v with
  | VUndefined => Some medium                      (* .default('medium') *)
  | VStr s =>
      if String.eqb s "low" then Some low
      else if String.eqb s "medium" then Some medium
      else if String.eqb s "high" then Some high
      else if String.eqb s "critical" then Some critical
      else None
  | _ => None
  end.

Definition parseContext (v : value) : option (option Params) :=
  match v with
  | VUndefined => Some None                        (* .optional() *)
  | VObj o => Some (Some o)
  | _ => None
  end.

(** [z.number().int().positive().default(d)] *)
Definition parsePositiveInt (d : Z) (v : value) : option Z :=
  match v with
  | VUndefined => Some d
  | VNum n => if 0 <? n then Some n else None
  | _ => None
  end.

(** Modelled from the spec: [TaskInputSchema.parse], the parse of the zod
    object schema declared in [types/index.ts] (zod itself is a
    dependency): a non-empty string [description], [priority] in the
    closed set with default medium, an optional record [context],
    positive integers [maxSteps] and [timeoutMs] with defaults 10 and
    60000.  It returns the validated input or throws a ZodError, whose
    text is not reproduced. *)
Definition TaskInputSchema_parse (input : value) : Outcome TaskInput :=
  let invalid := Throw (ThrowError ZodError "Invalid task input") in
  match input with
  | VObj o =>
      match obj_get "description" o,
            parsePriority (obj_get "priority" o),
            parseContext (obj_get "context" o),
            parsePositiveInt 10 (obj_get "maxSteps" o),
            parsePositiveInt 60000 (obj_get "timeoutMs" o) with
      | VStr d, Some p, Some c, Some m, Some t =>
          if (1 <=? String.length d)%nat
          then Ok {| description := d; priority := p; context := c;
                     maxSteps := m; timeoutMs := t |}
          else invalid
      | _, _, _, _, _ => invalid
      end
  | _ => invalid
  end.

Definition priority_string (p : TaskPriority) : string :=
  match p with
  | low => "low" | medium => "medium" | high => "high" | critical => "critical"
  end.

(** The validated input as the object it is. *)
Definition input_value (i : TaskInput) : value :=
  VObj ([("description", VStr (description i));
         ("priority", VStr (priority_string (priority i)))]
        ++ match context i with Some c => [("context", VObj c)] | None => [] end
        ++ [("maxSteps", VNum (maxSteps i)); ("timeoutMs", VNum (timeoutMs i))])%list.

End Schema.

(* ===================================================================== *)
(** ** The world: clock, id source, event sinks, tool invocations *)
(* ===================================================================== *)

Record World : Type := {
  now : Z;                               (* Date.now() *)
  nextId : nat;                          (* ids handed out so far *)
  events : list AgentEvent;              (* events emitted so far *)
  toolCalls : list (string * Params)     (* capabilities invoked so far *)
}.

Definition tick (ms : Z) (w : World) : World :=
  {| now := now w + ms; nextId := nextId w;
     events := events w; toolCalls := toolCalls w |}.

Definition record_call (name : string) (params : Params) (w : World) : World :=
  {| now := now w; nextId := nextId w; events := events w;
     toolCalls := (toolCalls w ++ [(name, params)])%list |}.

Definition record_event (e : AgentEvent) (w : World) : World :=
  {| now := now w; nextId := nextId w;
     events := (events w ++ [e])%list; toolCalls := toolCalls w |}.

Definition fresh_id (w : World) : World :=
  {| now := now w; nextId := S (nextId w);
     events := events w; toolCalls := toolCalls w |}.

(** What surrounds an agent: the registry singleton's tools in registration
    order, the subscribed handlers, the random source of [nanoid], and the
    planner call [createAIPlan] (prompt construction and
    [openai.completeJson]), whose outcome is the service's. *)
Record Env : Type := {
  tools : list ToolDefinition;
  eventHandlers : list EventHandler;
  nanoid : nat -> string;
  createAIPlan : Task -> list ToolDefinition -> Outcome PlanningResult
}.

(** [generateId(prefix)]: [`${PREFIXES[prefix]}_${nanoid(12)}`] *)
Definition generateId (env : Env) (prefix : string) (w : World) : string * World :=
  (prefix ++ "_" ++ nanoid env (nextId w), fresh_id w).

(* ===================================================================== *)
(** ** Tool registry ([tools/registry.ts]) *)
(* ===================================================================== *)

Module ToolRegistry.
Import Js.

(** [this.tools.get(name)] *)
Definition get (tools : list ToolDefinition) (name : string)
  : option ToolDefinition :=
  find (fun t => String.eqb (tool_name t) name) tools.

Definition getAll (tools : list ToolDefinition) : list ToolDefinition := tools.

Definition getNames (tools : list ToolDefinition) : list string :=
  map tool_name tools.

(** [this.tools.set(tool.name, tool)]: a known name keeps its place. *)
Fixpoint register (tool : ToolDefinition) (tools : list ToolDefinition)
  : list ToolDefinition :=
  match tools with
  | [] => [tool]
  | t :: rest =>
      if String.eqb (tool_name t) (tool_name tool) then tool :: rest
      else t :: register tool rest
  end.

Definition missingParams (tool : ToolDefinition) (params : Params) : list string :=
  map param_name
      (List.filter (fun p => required p && negb (has_in (param_name p) params))
                   (tool_parameters tool)).

(** The loop applying default values to a copy of [params].  The copy
    [{ ...params }] is a plain object with the own entries of [params]. *)
Definition applyDefaults (tool : ToolDefinition) (params : Params) : Params :=
  fold_left
    (fun resolvedParams param =>
       if negb (has_in (param_name param) resolvedParams)
          && negb (is_undefined (default param))
       then obj_set (param_name param) (default param) resolvedParams
       else resolvedParams)
    (tool_parameters tool) params.

(** [{ ...result.metadata, executionTimeMs: duration }] *)
Definition withExecutionTime (m : option Params) (duration : Z) : Params :=
  obj_set "executionTimeMs" (VNum duration)
          (match m with Some o => o | None => [] end).

Definition execute (tools : list ToolDefinition) (name : string) (params : Params)
           (w : World) : ToolResult * World :=
  match get tools name with
  | None =>
      ({| success := false; data := VUndefined;
          error := Some ("Tool '" ++ name ++ "' not found");
          metadata := None |}, w)
  | Some tool =>
      let startTime := now w in
      let missing := missingParams tool params in
      if (0 <? length missing)%nat then
        ({| success := false; data := VUndefined;
            error := Some ("Missing required parameters: "
                           ++ String.concat ", " missing);
            metadata := None |}, w)
      else
        let resolvedParams := applyDefaults tool params in
        let run := tool_execute tool resolvedParams in
        let w1 := tick (elapsedMs run) (record_call name resolvedParams w) in
        let duration := now w1 - startTime in
        match outcome run with
        | Ok result =>
            ({| success := success result; data := data result;
                error := error result;
                metadata := Some (withExecutionTime (metadata result) duration) |},
             w1)
        | Throw e =>                                   (* catch (error) *)
            ({| success := false; data := VUndefined;
                error := Some (messageOr "Unknown error" e);
                metadata := Some [("executionTimeMs", VNum duration)] |},
             w1)
        end
  end.

(** The result's metadata has an [executionTimeMs] entry. *)
Definition hasExecutionTime (r : ToolResult) : bool :=
  match metadata r with
  | Some m => obj_has "executionTimeMs" m
  | None => false
  end.

(** [this.tools.has(name)] *)
Definition has (tools : list ToolDefinition) (name : string) : bool :=
  existsb (fun t => String.eqb (tool_name t) name) tools.

(** [registerMany(tools)] *)
Definition registerMany (many tools : list ToolDefinition) : list ToolDefinition :=
  fold_left (fun registered tool => register tool registered) many tools.

(** [unregister(name)]: what [this.tools.delete(name)] returns, and the
    registry without the tool. *)
Definition unregister (name : string) (tools : list ToolDefinition)
  : bool * list ToolDefinition :=
  (has tools name,
   List.filter (fun t => negb (String.eqb (tool_name t) name)) tools).

(** [tool.parameters.filter((p) => p.required).map((p) => p.name)] *)
Definition requiredNames (tool : ToolDefinition) : list string :=
  map param_name (List.filter required (tool_parameters tool)).

(** [toOpenAIFunctions()]: one function schema per tool, in registration
    order; [Object.fromEntries] lets a later parameter of the same name
    replace an earlier one. *)
Definition toOpenAIFunctions (tools : list ToolDefinition) : list value :=
  map (fun tool =>
         VObj [("type", VStr "function");
               ("function",
                VObj [("name", VStr (tool_name tool));
                      ("description", VStr (tool_description tool));
                      ("parameters",
                       VObj [("type", VStr "object");
                             ("properties",
                              VObj (Js.assign_all
                                      (map (fun p =>
                                              (param_name p,
                                               VObj [("type", VStr (param_type p));
                                                     ("description",
                                                      VStr (param_description p))]))
                                           (tool_parameters tool))
                                      []));
                             ("required",
                              VArr (map VStr (requiredNames tool)))])])])
      (getAll tools).

(** One round of the defaults loop. *)
Definition defaultStep (resolvedParams : Params) (param : ToolParameter) : Params :=
  if negb (has_in (param_name param) resolvedParams)
     && negb (is_undefined (default param))
  then obj_set (param_name param) (default param) resolvedParams
  else resolvedParams.

End ToolRegistry.

(* ===================================================================== *)
(** ** The abstract agent ([agents/base.ts]) *)
(* ===================================================================== *)

Module BaseAgent.
Import Js.
Export Resolver.

(** [emitEvent]: every handler is awaited inside its own try/catch, so
    what a handler throws is logged and dropped. *)
Definition emitEvent (env : Env) (event : AgentEvent) (w : World) : World :=
  fold_left
    (fun w' handler =>
       match handler event with
       | Ok _ => w'
       | Throw _ => w'                       (* logger.error(...) *)
       end)
    (eventHandlers env) (record_event event w).

Definition set_step (st : TaskStatus) (res : value) (err : option string)
           (step : TaskStep) : TaskStep :=
  {| step_id := step_id step; step_name := step_name step;
     step_description := step_description step; toolName := toolName step;
     parameters := parameters step;
     step_status := st; step_result := res; step_error := err |}.

(** [executeStep(step, context)]: the step and the context it mutates are
    returned.  Neither [resolveParameters] nor the registry's [execute]
    throws in this embedding, so the outer catch block, which marks the
    step failed like the else branch does, has no case here. *)
Definition executeStep (env : Env) (step : TaskStep) (ctx : ExecutionContext)
           (w : World) : TaskStep * ExecutionContext * World :=
  let step := set_step executing (step_result step) (step_error step) step in
  let w := emitEvent env
             {| event_type := step_started; event_taskId := taskId ctx;
                event_data := [("stepId", VStr (step_id step));
                               ("toolName", VStr (toolName step))] |} w in
  let resolvedParams := resolveParameters (parameters step) (variables ctx) in
  let '(result, w) := ToolRegistry.execute (tools env) (toolName step)
                                           resolvedParams w in
  if success result then
    let step := set_step completed (data result) (step_error step) step in
    let ctx := {| taskId := taskId ctx;
                  stepResults := <[step_id step := result]> (stepResults ctx);
                  variables := variables ctx |} in
    let ctx :=
      if negb (is_undefined (data result))
      then {| taskId := taskId ctx; stepResults := stepResults ctx;
              variables := <["step." ++ step_id step ++ ".result" := data result]>
                             (variables ctx) |}
      else ctx in
    let w := emitEvent env
               {| event_type := step_completed; event_taskId := taskId ctx;
                  event_data := [("stepId", VStr (step_id step));
                                 ("result", data result)] |} w in
    (step, ctx, w)
  else
    let step := set_step failed (step_result step) (error result) step in
    let w := emitEvent env
               {| event_type := step_failed; event_taskId := taskId ctx;
                  event_data := [("stepId", VStr (step_id step));
                                 ("error", optional_string (error result))] |} w in
    (step, ctx, w).

(** [aggregateResults(steps)] *)
Definition aggregateResults (steps : list TaskStep) : value :=
  VObj (fold_left
          (fun results step =>
             if TaskStatus_eqb (step_status step) completed
                && negb (is_undefined (step_result step))
             then obj_set (step_id step)
                          (VObj [("name", VStr (step_name step));
                                 ("result", step_result step)])
                          results
             else results)
          steps []).

(** What the loop over [task.steps] has changed when it is left. *)
Record Progress : Type := {
  p_steps : list TaskStep;
  p_status : TaskStatus;
  p_error : option string;
  p_context : ExecutionContext
}.

(** The loop [for (const step of task.steps)], entered with the task's
    status, its error and the context. *)
Fixpoint executeSteps (env : Env) (todo : list TaskStep) (st : TaskStatus)
         (err : option string) (ctx : ExecutionContext) (w : World)
  : Progress * World :=
  match todo with
  | [] => ({| p_steps := []; p_status := st; p_error := err;
              p_context := ctx |}, w)
  | step :: rest =>
      if negb (TaskStatus_eqb st executing) then                    (* break *)
        ({| p_steps := todo; p_status := st; p_error := err;
            p_context := ctx |}, w)
      else
        let '(step', ctx', w') := executeStep env step ctx w in
        if TaskStatus_eqb (step_status step') failed then           (* break *)
          ({| p_steps := step' :: rest; p_status := failed;
              p_error := step_error step'; p_context := ctx' |}, w')
        else
          let '(p, w'') := executeSteps env rest st err ctx' w' in
          ({| p_steps := step' :: p_steps p; p_status := p_status p;
              p_error := p_error p; p_context := p_context p |}, w'')
  end.

Definition set_task (st : TaskStatus) (ss : list TaskStep) (res : value)
           (err : option string) (task : Task) : Task :=
  {| task_id := task_id task; input := input task; status := st;
     steps := ss; task_result := res; task_error := err;
     task_metadata := task_metadata task |}.

Section TemplateMethod.
(** [protected abstract plan(task)].  The registry and the planner service
    a subclass reaches through module singletons come with [Env]. *)
Variable plan : Env -> Task -> World -> Outcome (list TaskStep) * World.

Definition taskEvent (ty : EventType) (task : Task) (d : Params) : AgentEvent :=
  {| event_type := ty; event_taskId := task_id task; event_data := d |}.

(** [execute(input)].  Inside the try block only [plan] can throw:
    [emitEvent] and [executeStep] catch what is thrown below them.  When
    [plan] throws, the task is still in status planning and has no steps. *)
Definition execute (env : Env) (input : value) (w : World)
  : Outcome Task * World :=
  match Schema.TaskInputSchema_parse input with
  | Throw e => (Throw e, w)             (* parse is outside the try block *)
  | Ok validatedInput =>
      let '(id, w) := generateId env "task" w in
      let task := {| task_id := id; input := validatedInput;
                     status := pending; steps := [];
                     task_result := VUndefined; task_error := None;
                     task_metadata := [] |} in
      let w := emitEvent env
                 (taskEvent task_created task
                    [("input", Schema.input_value validatedInput)]) w in
      (* try *)
      let task := set_task planning (steps task) (task_result task)
                           (task_error task) task in
      let w := emitEvent env (taskEvent task_started task []) w in
      let w := emitEvent env (taskEvent task_planning task []) w in
      match plan env task w with
      | (Ok planned, w) =>
          let task := set_task (status task) planned (task_result task)
                               (task_error task) task in
          let w := emitEvent env
                     (taskEvent task_planned task
                        [("stepCount", VNum (Z.of_nat (length planned)))]) w in
          let task := set_task executing (steps task) (task_result task)
                               (task_error task) task in
          let ctx := {| taskId := task_id task; stepResults := ∅;
                        variables := ∅ |} in
          let '(p, w) := executeSteps env (steps task) (status task)
                                      (task_error task) ctx w in
          let task := set_task (p_status p) (p_steps p) (task_result task)
                               (p_error p) task in
          if TaskStatus_eqb (status task) executing then
            let result := aggregateResults (steps task) in
            let task := set_task completed (steps task) result
                                 (task_error task) task in
            let w := emitEvent env
                       (taskEvent task_completed task [("result", result)]) w in
            (Ok task, w)
          else
            let w := emitEvent env
                       (taskEvent task_failed task
                          [("error", optional_string (task_error task))]) w in
            (Ok task, w)
      | (Throw error, w) =>                              (* catch (error) *)
          let task := set_task failed (steps task) (task_result task)
                               (Some (messageOr "Unknown error" error)) task in
          let w := emitEvent env
                     (taskEvent task_failed task
                        [("error", optional_string (task_error task))]) w in
          (Ok task, w)
      end
  end.

End TemplateMethod.

(** The task as [execute] hands it to [plan]: created for the validated
    input under a fresh id, then put in status planning; it has no steps
    yet. *)
Definition planningTask (env : Env) (validatedInput : TaskInput) (w : World)
  : Task :=
  {| task_id := fst (generateId env "task" w); input := validatedInput;
     status := planning; steps := []; task_result := VUndefined;
     task_error := None; task_metadata := [] |}.

Definition isCompleted (s : TaskStep) : Prop := step_status s = completed.
Definition isPending (s : TaskStep) : Prop := step_status s = pending.

(** How the loop over the steps is left: either every step was executed and
    completed, or the steps before the first failure completed, that step
    failed, and the ones after it were not touched. *)
Inductive LoopExit (todo : list TaskStep) (err : option string) (p : Progress)
  : Prop :=
| AllCompleted :
    p_status p = executing ->
    p_error p = err ->
    Forall isCompleted (p_steps p) ->
    length (p_steps p) = length todo ->
    LoopExit todo err p
| StoppedAtFailure (done : list TaskStep) (f : TaskStep) (before rest : list TaskStep) :
    p_steps p = (done ++ f :: rest)%list ->
    todo = (before ++ rest)%list ->
    length before = S (length done) ->
    Forall isCompleted done ->
    step_status f = failed ->
    p_status p = failed ->
    p_error p = step_error f ->
    LoopExit todo err p.

(** *** Subscriptions ([onEvent])

    [indexOf] compares handlers by reference; a reference is a number
    here. *)
Definition HandlerRef : Type := nat.

(** [this.eventHandlers.indexOf(handler)]; [None] stands for -1. *)
Fixpoint indexOf (handler : HandlerRef) (eventHandlers : list HandlerRef)
  : option nat :=
  match eventHandlers with
  | [] => None
  | h :: rest =>
      if Nat.eqb h handler then Some 0%nat
      else option_map S (indexOf handler rest)
  end.

(** [this.eventHandlers.splice(index, 1)] *)
Definition splice1 (index : nat) (eventHandlers : list HandlerRef)
  : list HandlerRef :=
  (firstn index eventHandlers ++ skipn (S index) eventHandlers)%list.

(** [onEvent(handler)]: the handlers after the [push]. *)
Definition onEvent (handler : HandlerRef) (eventHandlers : list HandlerRef)
  : list HandlerRef :=
  (eventHandlers ++ [handler])%list.

(** The function [onEvent(handler)] returns, called when [eventHandlers]
    are subscribed. *)
Definition unsubscribe (handler : HandlerRef) (eventHandlers : list HandlerRef)
  : list HandlerRef :=
  match indexOf handler eventHandlers with
  | Some index => splice1 index eventHandlers
  | None => eventHandlers
  end.

(** The test of [aggregateResults] on a step, and the entry it writes. *)
Definition contributes (step : TaskStep) : bool :=
  TaskStatus_eqb (step_status step) completed
  && negb (is_undefined (step_result step)).

Definition aggregateEntry (step : TaskStep) : value :=
  VObj [("name", VStr (step_name step)); ("result", step_result step)].

(** The events a step leaves in the log, by the status it ends in. *)
Definition stepTrace (step : TaskStep) : list EventType :=
  match step_status step with
  | completed => [step_started; step_completed]
  | failed => [step_started; step_failed]
  | _ => []
  end.

(** The steps the loop has reached. *)
Definition executed (steps : list TaskStep) : list TaskStep :=
  List.filter (fun s => negb (TaskStatus_eqb (step_status s) pending)) steps.

(** The tools a run of the loop invokes, by name, against the steps it has
    reached: one invocation for every reached step, in their order, except
    that the step that failed may have failed before its tool was invoked
    (unknown tool, missing parameters). *)
Definition callsMatch (names : list string) (reached : list TaskStep) : Prop :=
  names = map toolName reached
  \/ exists front f,
      reached = (front ++ [f])%list
      /\ step_status f = failed
      /\ names = map toolName front.

(** One round of the loop of [aggregateResults]. *)
Definition aggregateStep (results : Params) (step : TaskStep) : Params :=
  if contributes step
  then obj_set (step_id step) (aggregateEntry step) results
  else results.

End BaseAgent.

(* ===================================================================== *)
(** ** The automation agent ([agents/automation-agent.ts]) *)
(* ===================================================================== *)

Module AutomationAgent.
Import Js.

(** [toLowerCase] on one code unit below 256: the letters A-Z, and the
    Latin-1 capitals U+00C0-U+00DE except the sign U+00D7, are moved 32 up
    to their small letters; no other code unit below 256 changes, and none
    is mapped outside that range. *)
Definition lower (c : ascii) : ascii :=
  let n := nat_of_ascii c in
  if ((65 <=? n) && (n <=? 90))%nat
     || ((192 <=? n) && (n <=? 222) && negb (n =? 215))%nat
  then ascii_of_nat (n + 32) else c.

Fixpoint toLowerCase (s : string) : string :=
  match s with
  | EmptyString => EmptyString
  | String c rest => String (lower c) (toLowerCase rest)
  end.

(** [name.replace(/_/g, ' ')] *)
Fixpoint underscoresToSpaces (s : string) : string :=
  match s with
  | EmptyString => EmptyString
  | String c rest =>
      String (if Ascii.eqb c "_"%char then " "%char else c)
             (underscoresToSpaces rest)
  end.

Definition pendingStep (id name descr tool : string) (params : Params) : TaskStep :=
  {| step_id := id; step_name := name; step_description := descr;
     toolName := tool; parameters := params; step_status := pending;
     step_result := VUndefined; step_error := None |}.

(** [plan.steps.map((step, index) => ...)] *)
Fixpoint convertSteps (env : Env) (index : nat) (planned : list PlannedStep)
         (w : World) : list TaskStep * World :=
  match planned with
  | [] => ([], w)
  | step :: rest =>
      let '(id, w) := generateId env "step" w in
      let name := if String.eqb (plan_name step) ""
                  then "Step " ++ pretty (index + 1)%nat
                  else plan_name step in
      let '(converted, w) := convertSteps env (S index) rest w in
      (pendingStep id name (plan_description step) (plan_toolName step)
                   (plan_parameters step) :: converted, w)
  end.

Definition convertPlanToSteps (env : Env) (plan : PlanningResult) (w : World)
  : list TaskStep * World :=
  convertSteps env 0 (plan_steps plan) w.

Definition createSimplePlan (env : Env) (task : Task) (w : World)
  : list TaskStep * World :=
  let toolNames := ToolRegistry.getNames (tools env) in
  let matchedTool :=
    find (fun name =>
            includes (toLowerCase (description (input task)))
                     (underscoresToSpaces name))
         toolNames in
  let analyze :=                       (* the default, no tool matched *)
    let '(id, w) := generateId env "step" w in
    ([pendingStep id "Analyze Input" "Analyze the task input for insights"
                  "analyze_text" [("text", VStr (description (input task)))]],
     w) in
  match matchedTool with
  | Some matched =>
      if String.eqb matched "" then analyze       (* if (matchedTool): "" is falsy *)
      else
        let '(id, w) := generateId env "step" w in
        ([pendingStep id ("Execute " ++ matched) (description (input task)) matched
                      (match context (input task) with Some c => c | None => [] end)],
         w)
  | None => analyze
  end.

Definition plan (env : Env) (task : Task) (w : World)
  : Outcome (list TaskStep) * World :=
  let availableTools := ToolRegistry.getAll (tools env) in
  if (length availableTools =? 0)%nat then
    let '(simple, w) := createSimplePlan env task w in (Ok simple, w)
  else
    match createAIPlan env task availableTools with
    | Ok planningResult =>
        let '(converted, w) := convertPlanToSteps env planningResult w in
        (Ok converted, w)
    | Throw _ =>                                          (* catch (error) *)
        let '(simple, w) := createSimplePlan env task w in (Ok simple, w)
    end.

Definition execute : Env -> value -> World -> Outcome Task * World :=
  BaseAgent.execute plan.

(** A capital letter among the code units below 256: one that
    [toLowerCase] changes. *)
Definition isUpper (c : ascii) : bool :=
  let n := nat_of_ascii c in
  ((65 <=? n) && (n <=? 90))%nat
  || ((192 <=? n) && (n <=? 222) && negb (n =? 215))%nat.

(** The characters of a string. *)
Fixpoint chars (s : string) : list ascii :=
  match s with
  | EmptyString => []
  | String c rest => c :: chars rest
  end.

(** [generateId('step')] when [i] ids were handed out before. *)
Definition stepIdAt (env : Env) (i : nat) : string := "step_" ++ nanoid env i.

(** The test by which [createSimplePlan] picks a tool. *)
Definition mentions (task : Task) (name : string) : bool :=
  includes (toLowerCase (description (input task))) (underscoresToSpaces name).

End AutomationAgent.

(* ===================================================================== *)
(** ** Identifiers ([utils/id.ts]) *)
(* ===================================================================== *)

Module Id.
Import Js.

(** [keyof typeof PREFIXES] *)
Inductive IdPrefix : Type := PTask | PStep | PTool | PEvent.

Definition PREFIXES (prefix : IdPrefix) : string :=
  match prefix with
  | PTask => "task"
  | PStep => "step"
  | PTool => "tool"
  | PEvent => "evt"
  end.

(** [Object.entries(PREFIXES)], in declaration order. *)
Definition PREFIXES_entries : list (IdPrefix * string) :=
  map (fun k => (k, PREFIXES k)) [PTask; PStep; PTool; PEvent].

(** [generateId(prefix)] with the agents' id source. *)
Definition generate (env : Env) (prefix : IdPrefix) (w : World) : string * World :=
  generateId env (PREFIXES prefix) w.

(** [isValidId(id, prefix?)] *)
Definition isValidId (id : string) (prefix : option IdPrefix) : bool :=
  match prefix with
  | Some p => startsWith id (PREFIXES p ++ "_")
  | None =>
      existsb (fun p => startsWith id (p ++ "_")) (map snd PREFIXES_entries)
  end.

(** [getIdPrefix(id)] *)
Definition getIdPrefix (id : string) : option IdPrefix :=
  option_map fst
             (find (fun kv => startsWith id (snd kv ++ "_")) PREFIXES_entries).

End Id.

(* ===================================================================== *)
(** ** Helpers of the built-in tools ([tools/builtin/index.ts]) *)
(* ===================================================================== *)

Module Builtin.
Import Js.

(** [s.split(sep)] for a separator of one character. *)
Fixpoint split (sep : ascii) (s : string) : list string :=
  match s with
  | EmptyString => [EmptyString]
  | String c rest =>
      if Ascii.eqb c sep then EmptyString :: split sep rest
      else match split sep rest with
           | part :: parts => String c part :: parts
           | [] => [String c EmptyString]
           end
  end.

(** [current[part]] for a [current] of type object: a property of an
    object; an element or the length of an array.  Only own properties are
    represented: what a name inherited from a prototype holds is a function,
    which [value] has not. *)
Definition getProperty (current : value) (part : string) : value :=
  match current with
  | VObj fields => obj_get part fields
  | VArr items =>
      if String.eqb part "length" then VNum (Z.of_nat (length items))
      else obj_get part (array_entries items)
  | _ => VUndefined
  end.

(** The loop of [getNestedValue] over the parts that are left. *)
Fixpoint walk (current : value) (parts : list string) : value :=
  match parts with
  | [] => current
  | part :: rest =>
      match current with
      | VNull | VUndefined => VUndefined
      | VObj _ | VArr _ => walk (getProperty current part) rest
      | _ => VUndefined
      end
  end.

Definition getNestedValue (obj : value) (path : string) : value :=
  walk obj (split "."%char path).

(** [prefix ? `${prefix}.${key}` : key] *)
Definition joinKey (prefix key : string) : string :=
  if String.eqb prefix "" then key else prefix ++ "." ++ key.

(** What one round of the loop of [flattenObject] assigns into [result]
    for an entry whose new key is [newKey]: the entries of the flattened
    value when it is a plain object, the value itself otherwise (arrays
    and [null] included). *)
Fixpoint flattenEntry (newKey : string) (v : value) : Params :=
  match v with
  | VObj fields =>
      assign_all
        (concat (map (fun kv => flattenEntry (joinKey newKey (fst kv)) (snd kv))
                     fields))
        []
  | _ => [(newKey, v)]
  end.

(** [flattenObject(obj, prefix)] *)
Definition flattenObject (obj : Params) (prefix : string) : Params :=
  assign_all
    (concat (map (fun kv => flattenEntry (joinKey prefix (fst kv)) (snd kv)) obj))
    [].

(** A property name that is not empty and has no dot in it. *)
Definition plainKey (k : string) : bool :=
  negb (String.eqb k "") && negb (existsb (Ascii.eqb "."%char) (AutomationAgent.chars k)).

(** Every property name in the value, at any depth below an object, is
    plain. *)
Fixpoint plainKeys (v : value) : bool :=
  match v with
  | VObj fields =>
      forallb (fun kv => plainKey (fst kv) && plainKeys (snd kv)) fields
  | _ => true
  end.

(** Each object in the value, at any depth below an object, has its
    property names once. *)
Fixpoint distinctNames (v : value) : bool :=
  match v with
  | VObj fields =>
      Resolver.distinctKeys (map fst fields)
      && forallb (fun kv => distinctNames (snd kv)) fields
  | _ => true
  end.

Definition isPlainObject (v : value) : bool :=
  match v with VObj _ => true | _ => false end.

(** The parts of a prefix; the empty prefix has none. *)
Definition prefixParts (prefix : string) : list string :=
  if String.eqb prefix "" then [] else split "."%char prefix.

(** Where a name of the flattened entry leads. *)
Definition leadsBack (v : value) : Prop :=
  forall newKey key,
    newKey <> "" ->
    plainKeys v = true -> distinctNames v = true ->
    obj_has key (flattenEntry newKey v) = true ->
    exists path,
      split "."%char key = (split "."%char newKey ++ path)%list
      /\ obj_get key (flattenEntry newKey v) = walk v path.

End Builtin.

(* ===================================================================== *)
(** ** Sample operations, tools and inputs *)
(* ===================================================================== *)

Module Examples.
Import Retry CircuitBreaker.

(** A service that answers 429 once and then succeeds, one that is always
    overloaded, and one that rejects the request outright. *)
Definition flaky : Operation Z :=
  fun n => match n with
           | 1%nat => Throw (ThrowError PlainError "429 Too Many Requests")
           | _ => Ok 7
           end.

Definition overloaded : Operation Z :=
  fun _ => Throw (ThrowError PlainError "service overloaded").

Definition rejecting : Operation Z :=
  fun _ => Throw (ThrowError PlainError "invalid api key").

Definition twoRetries : RetryOptions :=
  {| retries := 2; minTimeout := 1000; maxTimeout := None; factor := None |}.

Definition twoFailures : CircuitBreakerOptions :=
  {| failureThreshold := 2; resetTimeoutMs := 1000 |}.

Definition failingAt (entered settled : Z) : Call Z :=
  {| enteredAt := entered;
     operation := Throw (ThrowError PlainError "ECONNRESET");
     settledAt := settled |}.

(** An empty registry and a world in which nothing has happened yet. *)
Definition noTools : list ToolDefinition := [].

Definition epoch : World :=
  {| now := 0; nextId := 0; events := []; toolCalls := [] |}.

(** A tool whose required parameters have names every object inherits. *)
Definition inheritedNames : ToolDefinition :=
  {| tool_name := "proto"; tool_description := "Requires inherited names";
     tool_parameters :=
       [{| param_name := "toString"; param_type := "string";
           param_description := ""; required := true; default := VUndefined |};
        {| param_name := "constructor"; param_type := "string";
           param_description := ""; required := true; default := VStr "d" |}];
     tool_execute := fun _ =>
       {| elapsedMs := 1;
          outcome := Ok {| success := true; data := VStr "ran";
                           error := None; metadata := None |} |} |}.

(** A tool without parameters that fulfils with no data. *)
Definition noop : ToolDefinition :=
  {| tool_name := "noop"; tool_description := "Does nothing";
     tool_parameters := [];
     tool_execute := fun _ =>
       {| elapsedMs := 3;
          outcome := Ok {| success := true; data := VUndefined;
                           error := None; metadata := None |} |} |}.

Definition noopEnv : Env :=
  {| tools := [noop]; eventHandlers := [];
     nanoid := fun n => pretty n;
     createAIPlan := fun _ _ => Throw (ThrowError PlainError "ETIMEDOUT") |}.

Definition noopStep : TaskStep :=
  {| step_id := "step_1"; step_name := "Wait"; step_description := "";
     toolName := "noop"; parameters := []; step_status := pending;
     step_result := VUndefined; step_error := None |}.

Definition emptyContext : ExecutionContext :=
  {| taskId := "task_0"; stepResults := ∅; variables := ∅ |}.


(** No tool registered, a planner that times out, and a subscribed handler
    that throws on every event. *)
Definition failingEnv : Env :=
  {| tools := []; eventHandlers := [fun _ => Throw (ThrowValue VNull)];
     nanoid := fun n => pretty n;
     createAIPlan := fun _ _ => Throw (ThrowError PlainError "ETIMEDOUT") |}.

(** [{description: "add 30 days", context: {}}] *)
Definition addThirtyDays : value :=
  VObj [("description", VStr "add 30 days"); ("context", VObj [])].

(** A planner that answers with an empty list of steps. *)
Definition emptyPlanEnv : Env :=
  {| tools := [noop]; eventHandlers := [];
     nanoid := fun n => pretty n;
     createAIPlan := fun _ _ =>
       Ok {| plan_steps := []; reasoning := "nothing to do" |} |}.

Definition summarize : value := VObj [("description", VStr "summarize")].

(** [{description: "run noop"}]: with [noopEnv] the planner fails and the
    fallback plan finds the tool [noop] in the description. *)
Definition runNoop : value := VObj [("description", VStr "run noop")].


End Examples.

(* ===================================================================== *)
(** * Properties *)
(* ===================================================================== *)

(** ** The retry wrapper *)

Module RetryFacts.
Import Js Retry Examples.

Section WithResult.
Context {T : Type}.
Implicit Types (operation : Operation T) (input : nat -> Outcome T).

Lemma retryable_is_plain e :
  isRetryableError e = true ->
  exists cls m, e = ThrowError cls m /\ cls <> AbortError.
Proof.
  destruct e as [cls m|v]; [|discriminate].
  destruct cls; try discriminate; intros _; eauto.
Qed.

Lemma pRetry_attempt_skip input j :
  forall a budget reported,
    (forall i, (a <= i < a + j)%nat -> retried input i) ->
    pRetry_attempt input a (j + budget) reported
    = pRetry_attempt input (a + j) budget (reported ++ seq a j)%list.
Proof.
  induction j as [|j IH]; intros a budget reported Hfail.
  - simpl. rewrite Nat.add_0_r, app_nil_r. reflexivity.
  - destruct (Hfail a ltac:(lia)) as (cls & m & Ha & Hcls).
    simpl. rewrite Ha.
    replace (a + S j)%nat with (S a + j)%nat by lia.
    destruct cls; try congruence.
    + rewrite IH by (intros i Hi; apply Hfail; lia).
      rewrite <- app_assoc. reflexivity.
    + rewrite IH by (intros i Hi; apply Hfail; lia).
      rewrite <- app_assoc. reflexivity.
Qed.

Lemma withRetry_unfold operation options :
  withRetry operation options
  = pRetry_attempt (guarded operation) 1 (retries options) [].
Proof. reflexivity. Qed.

Lemma guarded_retried operation n :
  failsRetryably operation n -> retried (guarded operation) n.
Proof.
  intros (e & He & Hr). unfold retried, guarded. rewrite He, Hr. simpl.
  destruct (retryable_is_plain e Hr) as (cls & m & -> & Hcls). eauto.
Qed.

Lemma withRetry_reaches operation options k :
  (1 <= k <= retries options + 1)%nat ->
  (forall i, (1 <= i < k)%nat -> failsRetryably operation i) ->
  withRetry operation options
  = pRetry_attempt (guarded operation) k (retries options + 1 - k)
                   (seq 1 (k - 1)).
Proof.
  intros Hk Hfail. rewrite withRetry_unfold.
  replace (retries options) with ((k - 1) + (retries options + 1 - k))%nat
    at 1 by lia.
  rewrite pRetry_attempt_skip.
  - replace (1 + (k - 1))%nat with k by lia. reflexivity.
  - intros i Hi. apply guarded_retried, Hfail. lia.
Qed.

Lemma withRetry_succeeds operation options k v :
  (1 <= k <= retries options + 1)%nat ->
  (forall i, (1 <= i < k)%nat -> failsRetryably operation i) ->
  operation k = Ok v ->
  settled (withRetry operation options) = Ok v
  /\ invocations (withRetry operation options) = k.
Proof.
  intros Hk Hfail Hok. rewrite (withRetry_reaches _ _ k Hk Hfail).
  destruct (retries options + 1 - k)%nat; simpl;
    unfold guarded; rewrite Hok; auto.
Qed.

Lemma withRetry_exhausts operation options :
  (forall i, (1 <= i <= retries options + 1)%nat -> failsRetryably operation i) ->
  (exists e, settled (withRetry operation options) = Throw e)
  /\ invocations (withRetry operation options) = (retries options + 1)%nat.
Proof.
  intros Hfail.
  rewrite (withRetry_reaches _ _ (retries options + 1)%nat)
    by (try lia; intros i Hi; apply Hfail; lia).
  replace (retries options + 1 - (retries options + 1))%nat with 0%nat by lia.
  destruct (guarded_retried operation (retries options + 1)%nat)
    as (cls & m & Hg & Hcls); [apply Hfail; lia|].
  simpl. rewrite Hg. destruct cls; try congruence; simpl; eauto.
Qed.

Lemma withRetry_aborts operation options k :
  (1 <= k <= retries options + 1)%nat ->
  (forall i, (1 <= i < k)%nat -> failsRetryably operation i) ->
  failsFatally operation k ->
  (exists e, settled (withRetry operation options) = Throw e)
  /\ invocations (withRetry operation options) = k.
Proof.
  intros Hk Hfail (e & He & Hr). rewrite (withRetry_reaches _ _ k Hk Hfail).
  destruct (retries options + 1 - k)%nat; simpl;
    unfold guarded; rewrite He, Hr; simpl; eauto.
Qed.

End WithResult.

(** C3. [withRetry] returns the value of the first successful attempt
    [k <= retries + 1] after exactly [k] invocations when the earlier ones
    failed retryably; it surfaces a failure after exactly [retries + 1]
    invocations when all of them fail retryably; and an attempt that fails
    with an error that is not retryable is the last invocation. *)
Theorem withRetry_attempts {T : Type} (operation : Operation T)
        (options : RetryOptions) :
  (forall k v,
      (1 <= k <= retries options + 1)%nat ->
      (forall i, (1 <= i < k)%nat -> failsRetryably operation i) ->
      operation k = Ok v ->
      settled (withRetry operation options) = Ok v
      /\ invocations (withRetry operation options) = k)
  /\ ((forall i, (1 <= i <= retries options + 1)%nat ->
                 failsRetryably operation i) ->
      (exists e, settled (withRetry operation options) = Throw e)
      /\ invocations (withRetry operation options) = (retries options + 1)%nat)
  /\ (forall k,
         (1 <= k <= retries options + 1)%nat ->
         (forall i, (1 <= i < k)%nat -> failsRetryably operation i) ->
         failsFatally operation k ->
         (exists e, settled (withRetry operation options) = Throw e)
         /\ invocations (withRetry operation options) = k).
Proof.
  split; [|split].
  - intros k v. apply withRetry_succeeds.
  - apply withRetry_exhausts.
  - intros k. apply withRetry_aborts.
Qed.

Lemma withRetry_attempts_witness :
  (settled (withRetry flaky twoRetries) = Ok 7
   /\ invocations (withRetry flaky twoRetries) = 2%nat)
  /\ ((exists e, settled (withRetry overloaded twoRetries) = Throw e)
      /\ invocations (withRetry overloaded twoRetries) = 3%nat)
  /\ ((exists e, settled (withRetry rejecting twoRetries) = Throw e)
      /\ invocations (withRetry rejecting twoRetries) = 1%nat).
Proof.
  split; [|split].
  - apply (proj1 (withRetry_attempts flaky twoRetries) 2%nat 7).
    + simpl. lia.
    + intros i Hi. assert (i = 1%nat) as -> by lia.
      eexists. split; reflexivity.
    + reflexivity.
  - apply (proj1 (proj2 (withRetry_attempts overloaded twoRetries))).
    intros i _. eexists. split; reflexivity.
  - apply (proj2 (proj2 (withRetry_attempts rejecting twoRetries)) 1%nat).
    + simpl. lia.
    + intros i Hi. lia.
    + eexists. split; reflexivity.
Defined.

End RetryFacts.

(** ** The circuit breaker *)

Module BreakerFacts.
Import CircuitBreaker Examples.

Section WithResult.
Context {T : Type}.
Implicit Types (cb : CircuitBreaker) (c : Call T) (calls : list (Call T)).

Lemma execute_closed_failure cb c :
  state cb = closed -> fails c ->
  breaker (execute cb c) = onFailure cb (settledAt c)
  /\ attemptedIn (execute cb c) = Some closed.
Proof.
  intros Hst Hf. unfold execute, fails in *. rewrite Hst.
  destruct (operation c); [contradiction|]. simpl. rewrite Hst. auto.
Qed.

(** Failures that reach the threshold with the last call open the
    breaker at that call; the ones before leave it closed. *)
Lemma executeAll_reaches_threshold calls :
  forall cb,
    state cb = closed ->
    Forall fails calls ->
    calls <> [] ->
    (failures cb + length calls)%nat = failureThreshold (options cb) ->
    let opened := executeAll cb calls in
    state opened = open
    /\ failures opened = failureThreshold (options cb)
    /\ lastFailureTime opened = settledAt <$> last calls
    /\ options opened = options cb.
Proof.
  induction calls as [|c rest IH]; intros cb Hst Hall Hne Hlen; [congruence|].
  inversion Hall as [|? ? Hc Hrest]; subst.
  destruct (execute_closed_failure cb c Hst Hc) as [Hb _].
  unfold executeAll in *. cbn [fold_left]. rewrite Hb.
  destruct rest as [|c' rest'].
  - cbn [fold_left last fmap option_fmap option_map length] in *.
    unfold onFailure; cbn.
    replace (S (failures cb)) with (failureThreshold (options cb)) by lia.
    rewrite Nat.leb_refl. auto.
  - assert (Hcl : state (onFailure cb (settledAt c)) = closed).
    { unfold onFailure; cbn [state].
      destruct (Nat.leb_spec (failureThreshold (options cb)) (S (failures cb)));
        [cbn [length] in Hlen; lia | exact Hst]. }
    destruct (IH (onFailure cb (settledAt c)) Hcl Hrest ltac:(congruence))
      as (H1 & H2 & H3 & H4).
    { cbn [onFailure failures options length] in *. lia. }
    cbn zeta. cbn [onFailure options] in H2, H4.
    repeat split; assumption.
Qed.

Lemma execute_open_rejects cb c t :
  state cb = open -> lastFailureTime cb = Some t ->
  enteredAt c - t < resetTimeoutMs (options cb) ->
  execute cb c
  = {| result := Throw (ThrowError PlainError "Circuit breaker is open");
       attemptedIn := None; breaker := cb |}.
Proof.
  intros Hst Ht Hlt. unfold execute, shouldAttemptReset. rewrite Hst, Ht.
  destruct (Z.leb_spec (resetTimeoutMs (options cb)) (enteredAt c - t));
    [lia | reflexivity].
Qed.

Lemma execute_open_probes cb c t :
  state cb = open -> lastFailureTime cb = Some t ->
  resetTimeoutMs (options cb) <= enteredAt c - t ->
  attemptedIn (execute cb c) = Some half_open
  /\ forall v, operation c = Ok v ->
               result (execute cb c) = Ok v
               /\ state (breaker (execute cb c)) = closed
               /\ failures (breaker (execute cb c)) = 0%nat.
Proof.
  intros Hst Ht Hge. unfold execute, shouldAttemptReset. rewrite Hst, Ht.
  destruct (Z.leb_spec (resetTimeoutMs (options cb)) (enteredAt c - t));
    [|lia].
  split.
  - destruct (operation c); reflexivity.
  - intros v ->. auto.
Qed.

End WithResult.

(** C4. A closed breaker with no failures counted, hit by
    [failureThreshold] failing calls in a row, is open; a call entered
    less than [resetTimeoutMs] after the last failure is rejected and the
    operation is not invoked; a call entered once [resetTimeoutMs] has
    elapsed is attempted in the half-open state, and if it succeeds the
    breaker is closed again with a failure count of 0. *)
Theorem breaker_opens_rejects_recovers {T : Type}
        (cb : CircuitBreaker) (calls : list (Call T)) (next : Call T) :
  state cb = closed ->
  failures cb = 0%nat ->
  (0 < failureThreshold (options cb))%nat ->
  length calls = failureThreshold (options cb) ->
  Forall fails calls ->
  let opened := executeAll cb calls in
  exists lastFailure,
    settledAt <$> last calls = Some lastFailure
    /\ lastFailureTime opened = Some lastFailure
    /\ state opened = open
    /\ (enteredAt next - lastFailure < resetTimeoutMs (options cb) ->
        result (execute opened next)
        = Throw (ThrowError PlainError "Circuit breaker is open")
        /\ attemptedIn (execute opened next) = None
        /\ breaker (execute opened next) = opened)
    /\ (resetTimeoutMs (options cb) <= enteredAt next - lastFailure ->
        attemptedIn (execute opened next) = Some half_open
        /\ forall v, operation next = Ok v ->
                     result (execute opened next) = Ok v
                     /\ state (breaker (execute opened next)) = closed
                     /\ failures (breaker (execute opened next)) = 0%nat).
Proof.
  intros Hst Hf Hpos Hlen Hall opened.
  assert (Hne : calls <> []) by (destruct calls; cbn in Hlen; [lia|congruence]).
  destruct (executeAll_reaches_threshold calls cb Hst Hall Hne ltac:(lia))
    as (Hopen & _ & Hlast & Hopts).
  fold opened in Hopen, Hlast, Hopts.
  destruct (last calls) as [c|] eqn:Hl;
    [|apply last_None in Hl; contradiction].
  exists (settledAt c). cbn in Hlast |- *.
  split; [reflexivity|]. split; [assumption|]. split; [assumption|]. split.
  - intros Hlt.
    rewrite (execute_open_rejects opened next (settledAt c))
      by (auto; congruence).
    cbn. auto.
  - intros Hge.
    apply (execute_open_probes opened next (settledAt c)); auto; congruence.
Qed.

Lemma breaker_opens_rejects_recovers_witness :
  let cb := new twoFailures in
  let calls := [failingAt 0 10; failingAt 20 30] in
  let next := {| enteredAt := 500; operation := Ok 1; settledAt := 510 |} in
  (state cb = closed /\ failures cb = 0%nat
   /\ length calls = failureThreshold (options cb) /\ Forall fails calls)
  /\ exists lastFailure,
      settledAt <$> last calls = Some lastFailure
      /\ lastFailureTime (executeAll cb calls) = Some lastFailure
      /\ state (executeAll cb calls) = open
      /\ (enteredAt next - lastFailure < resetTimeoutMs (options cb) ->
          result (execute (executeAll cb calls) next)
          = Throw (ThrowError PlainError "Circuit breaker is open")
          /\ attemptedIn (execute (executeAll cb calls) next) = None
          /\ breaker (execute (executeAll cb calls) next) = executeAll cb calls)
      /\ (resetTimeoutMs (options cb) <= enteredAt next - lastFailure ->
          attemptedIn (execute (executeAll cb calls) next) = Some half_open
          /\ forall v, operation next = Ok v ->
                       result (execute (executeAll cb calls) next) = Ok v
                       /\ state (breaker (execute (executeAll cb calls) next)) = closed
                       /\ failures (breaker (execute (executeAll cb calls) next))
                          = 0%nat).
Proof.
  intros cb calls next.
  assert (Hfails : Forall fails calls) by (repeat constructor).
  split.
  - repeat split; [exact Hfails].
  - apply (breaker_opens_rejects_recovers cb calls next);
      [reflexivity | reflexivity | simpl; lia | reflexivity | exact Hfails].
Defined.

End BreakerFacts.

(** ** Objects *)

Module JsFacts.
Import Js.

Lemma obj_has_set_same k v o : obj_has k (obj_set k v o) = true.
Proof.
  induction o as [|[k' v'] o IH]; simpl.
  - rewrite String.eqb_refl. reflexivity.
  - destruct (String.eqb k k') eqn:E; simpl.
    + rewrite String.eqb_refl. reflexivity.
    + rewrite E. exact IH.
Qed.

Lemma obj_get_set_same k v o : obj_get k (obj_set k v o) = v.
Proof.
  induction o as [|[k' v'] o IH]; simpl.
  - rewrite String.eqb_refl. reflexivity.
  - destruct (String.eqb k k') eqn:E; simpl.
    + rewrite String.eqb_refl. reflexivity.
    + rewrite E. exact IH.
Qed.

(** Assigning a property the object lacks adds it at the end. *)
Lemma obj_set_fresh k v o :
  obj_has k o = false -> obj_set k v o = (o ++ [(k, v)])%list.
Proof.
  induction o as [|[k' v'] o IH]; simpl; [reflexivity|].
  destruct (String.eqb k k'); [discriminate|].
  intros H. rewrite IH by exact H. reflexivity.
Qed.

Lemma obj_has_app k o1 o2 :
  obj_has k (o1 ++ o2)%list = obj_has k o1 || obj_has k o2.
Proof.
  induction o1 as [|[k' v'] o1 IH]; simpl; [reflexivity|].
  destruct (String.eqb k k'); [reflexivity | exact IH].
Qed.

Lemma obj_get_app_l k o1 o2 :
  obj_has k o1 = true -> obj_get k (o1 ++ o2)%list = obj_get k o1.
Proof.
  induction o1 as [|[k' v'] o1 IH]; simpl; [discriminate|].
  destruct (String.eqb k k'); [reflexivity | exact IH].
Qed.

Lemma obj_get_app_r k o1 o2 :
  obj_has k o1 = false -> obj_get k (o1 ++ o2)%list = obj_get k o2.
Proof.
  induction o1 as [|[k' v'] o1 IH]; simpl; [reflexivity|].
  destruct (String.eqb k k'); [discriminate | exact IH].
Qed.

End JsFacts.

(** ** The tool registry *)

Module RegistryFacts.
Import Js ToolRegistry Examples.

(** C7, as stated, fails: the result for an unknown tool is returned before
    any time is measured and carries no metadata. *)
Lemma execute_unknown_tool_has_no_metadata :
  ~ (forall tools name params w,
        hasExecutionTime (fst (execute tools name params w)) = true).
Proof.
  intros H. specialize (H noTools "no_such_tool" [] epoch).
  vm_compute in H. discriminate.
Qed.

(** C7, amended.  An unknown tool yields [success: false] with the error
    [Tool '<name>' not found], invokes no capability and carries no
    metadata; so does a call in which a required parameter is missing, that
    is, its name is not [in] the parameters ([missingParams]: neither an own
    property nor a name inherited from [Object.prototype]), with its own
    error; in every other case the capability is invoked once, with the
    defaulted parameters, and the result's metadata contains
    [executionTimeMs], whether the tool succeeded, failed or threw. *)
Theorem execute_attaches_time_when_invoked
        (tools : list ToolDefinition) (name : string) (params : Params) (w : World) :
  let r := fst (execute tools name params w) in
  let w' := snd (execute tools name params w) in
  match get tools name with
  | None =>
      success r = false
      /\ error r = Some ("Tool '" ++ name ++ "' not found")
      /\ metadata r = None
      /\ w' = w
  | Some tool =>
      match missingParams tool params with
      | _ :: _ =>
          success r = false
          /\ error r = Some ("Missing required parameters: "
                             ++ String.concat ", " (missingParams tool params))
          /\ metadata r = None
          /\ w' = w
      | [] =>
          toolCalls w' = (toolCalls w ++ [(name, applyDefaults tool params)])%list
          /\ hasExecutionTime r = true
          /\ match outcome (tool_execute tool (applyDefaults tool params)) with
             | Ok result => success r = success result /\ error r = error result
                            /\ data r = data result
             | Throw e => success r = false
                          /\ error r = Some (messageOr "Unknown error" e)
             end
      end
  end.
Proof.
  unfold execute. destruct (get tools name) as [tool|]; cbn zeta.
  - destruct (missingParams tool params) as [|m ms] eqn:Hm; cbn [length Nat.ltb Nat.leb].
    + destruct (outcome (tool_execute tool (applyDefaults tool params)))
        as [result|e]; cbn.
      * repeat split. unfold hasExecutionTime, withExecutionTime. cbn.
        apply JsFacts.obj_has_set_same.
      * repeat split.
    + cbn. repeat split.
  - cbn. repeat split.
Qed.

(** The operator [in] sees inherited names: a tool that requires
    [toString] and [constructor] is invoked with the parameters [{}]. *)
Lemma inherited_names_pass_validation :
  missingParams inheritedNames [] = []
  /\ missingParams inheritedNames [("toString", VStr "x")] = []
  /\ execute [inheritedNames] "proto" [] epoch
     = ({| success := true; data := VStr "ran"; error := None;
           metadata := Some [("executionTimeMs", VNum 1)] |},
        {| now := 1; nextId := 0; events := [];
           toolCalls := [("proto", [])] |}).
Proof. repeat split. Qed.

End RegistryFacts.

(** ** The parameter resolver *)

Module ResolverFacts.
Import Js Resolver JsFacts Examples.

Section DeepInduction.
Variable P : value -> Prop.
Hypothesis Hundefined : P VUndefined.
Hypothesis Hnull : P VNull.
Hypothesis Hbool : forall b, P (VBool b).
Hypothesis Hnum : forall n, P (VNum n).
Hypothesis Hstr : forall s, P (VStr s).
Hypothesis Harr : forall items, Forall P items -> P (VArr items).
Hypothesis Hobj : forall fields, Forall (fun kv => P (snd kv)) fields -> P (VObj fields).

Fixpoint value_deep_ind (v : value) : P v :=
  match v with
  | VUndefined => Hundefined
  | VNull => Hnull
  | VBool b => Hbool b
  | VNum n => Hnum n
  | VStr s => Hstr s
  | VArr items =>
      Harr items
           ((fix all (l : list value) : Forall P l :=
               match l with
               | [] => @ListDef.Forall_nil _ P
               | x :: l' => @ListDef.Forall_cons _ P x l' (value_deep_ind x) (all l')
               end) items)
  | VObj fields =>
      Hobj fields
           ((fix all (l : Params) : Forall (fun kv => P (snd kv)) l :=
               match l with
               | [] => @ListDef.Forall_nil _ _
               | kv :: l' =>
                   @ListDef.Forall_cons _ (fun kv => P (snd kv)) kv l'
                                        (value_deep_ind (snd kv)) (all l')
               end) fields)
  end.
End DeepInduction.

Lemma obj_has_singleton_other k k' v :
  String.eqb k' k = false -> obj_has k [(k', v)] = false.
Proof.
  intros H. simpl. rewrite String.eqb_sym, H. reflexivity.
Qed.

(** With distinct names none of which the object has, the assignments add
    the entries as they come. *)
Lemma assign_all_distinct entries :
  forall o,
    distinctKeys (map fst entries) = true ->
    forallb (fun k => negb (obj_has k o)) (map fst entries) = true ->
    assign_all entries o = (o ++ entries)%list.
Proof.
  induction entries as [|[k v] rest IH]; intros o Hd Hfresh.
  - simpl. rewrite app_nil_r. reflexivity.
  - simpl in Hd, Hfresh.
    apply andb_true_iff in Hd as [Hk Hd].
    apply andb_true_iff in Hfresh as [Hko Hfresh].
    apply negb_true_iff in Hk, Hko.
    unfold assign_all in *. cbn [fold_left fst snd].
    rewrite (obj_set_fresh k v o Hko).
    rewrite IH; [rewrite <- app_assoc; reflexivity | exact Hd |].
    apply forallb_forall. intros k' Hin.
    rewrite obj_has_app.
    rewrite forallb_forall in Hfresh. specialize (Hfresh k' Hin).
    apply negb_true_iff in Hfresh. rewrite Hfresh. simpl.
    destruct (String.eqb k' k) eqn:E; [|reflexivity].
    apply String.eqb_eq in E. subst k'.
    assert (existsb (String.eqb k) (map fst rest) = true) as Hex.
    { apply existsb_exists. exists k. split; [exact Hin | apply String.eqb_refl]. }
    congruence.
Qed.

Lemma assign_all_fresh entries :
  distinctKeys (map fst entries) = true -> assign_all entries [] = entries.
Proof.
  intros Hd. rewrite assign_all_distinct; [reflexivity | exact Hd |].
  apply forallb_forall. reflexivity.
Qed.

Lemma map_keys_resolve (f : value -> value) (o : Params) :
  map fst (map (fun kv => (fst kv, f (snd kv))) o) = map fst o.
Proof. rewrite map_map. reflexivity. Qed.

Lemma obj_get_map (f : value -> value) k (o : Params) :
  f VUndefined = VUndefined ->
  obj_get k (map (fun kv => (fst kv, f (snd kv))) o) = f (obj_get k o).
Proof.
  intros Hf. induction o as [|[k' v'] o IH]; simpl; [symmetry; exact Hf|].
  destruct (String.eqb k k'); [reflexivity | exact IH].
Qed.

Lemma resolveValue_object vars fields :
  resolveValue vars (VObj fields) = VObj (resolveParameters fields vars).
Proof. reflexivity. Qed.

(** On a value without references and without arrays the resolver changes
    nothing. *)
Lemma resolveValue_plain vars v :
  wellFormed v = true -> noReferences v = true -> noArrays v = true ->
  resolveValue vars v = v.
Proof.
  induction v as [ | | b | n | s | items IH | fields IH ] using value_deep_ind;
    intros Hwf Hrefs Harrs; try reflexivity.
  - simpl in *. apply negb_true_iff in Hrefs. rewrite Hrefs. reflexivity.
  - discriminate.
  - cbn [wellFormed noReferences noArrays] in *.
    apply andb_true_iff in Hwf as [Hd Hwf].
    cbn [resolveValue]. f_equal.
    assert (map (fun kv => (fst kv, resolveValue vars (snd kv))) fields = fields)
      as ->.
    { clear Hd. induction fields as [|[k v] rest IHrest]; [reflexivity|].
      inversion IH as [|? ? Hv Hrest]; subst.
      simpl in Hwf, Hrefs, Harrs.
      apply andb_true_iff in Hwf as [? ?].
      apply andb_true_iff in Hrefs as [? ?].
      apply andb_true_iff in Harrs as [? ?].
      simpl in Hv |- *. rewrite Hv by assumption. rewrite IHrest by assumption.
      reflexivity. }
    apply assign_all_fresh, Hd.
Qed.

Lemma resolveParameters_plain vars p :
  wellFormed (VObj p) = true -> noReferences (VObj p) = true ->
  noArrays (VObj p) = true ->
  resolveParameters p vars = p.
Proof.
  intros Hwf Hrefs Harrs.
  pose proof (resolveValue_plain vars (VObj p) Hwf Hrefs Harrs) as H.
  rewrite resolveValue_object in H. congruence.
Qed.

(** What the resolver leaves under a property name. *)
Lemma resolveParameters_get vars p k :
  distinctKeys (map fst p) = true ->
  obj_get k (resolveParameters p vars) = resolveValue vars (obj_get k p).
Proof.
  intros Hd. unfold resolveParameters.
  rewrite assign_all_fresh by (rewrite map_keys_resolve; exact Hd).
  apply obj_get_map. reflexivity.
Qed.

Lemma resolveValue_reference vars id :
  resolveValue vars (VStr ("$step." ++ id ++ ".result"))
  = nullish (map_get vars ("step." ++ id ++ ".result"))
            (VStr ("$step." ++ id ++ ".result")).
Proof. reflexivity. Qed.

(** C8.  The resolver does not return what was stored when that is
    [null]: in [context.variables.get(varPath) ?? value] the operator [??]
    takes the stored [null] for a missing entry, and the string is kept
    with its sigil.  Whatever else the context holds and whatever the step
    is called, once [null] is the value last stored under
    [step.<id>.result], the parameter [$step.<id>.result] resolves to the
    string and not to [null].  ([executeStep] does store a [null] payload:
    it tests [result.data !== undefined].) *)
Theorem resolveParameters_drops_stored_null
        (vars : gmap string value) (id : string) :
  let key := "step." ++ id ++ ".result" in
  let stored := <[key := VNull]> vars in
  stored !! key = Some VNull
  /\ resolveParameters [("value", VStr ("$" ++ key))] stored
     = [("value", VStr ("$" ++ key))]
  /\ obj_get "value" (resolveParameters [("value", VStr ("$" ++ key))] stored)
     <> VNull.
Proof.
  intros key stored.
  assert (Hstored : stored !! key = Some VNull) by apply lookup_insert_eq.
  assert (Hres : resolveParameters [("value", VStr ("$" ++ key))] stored
                 = [("value", VStr ("$" ++ key))]).
  { unfold resolveParameters. cbn [map fst snd].
    change (VStr ("$" ++ key)) with (VStr ("$step." ++ id ++ ".result")).
    rewrite resolveValue_reference. fold key. unfold map_get.
    rewrite Hstored. reflexivity. }
  split; [exact Hstored|]. split; [exact Hres|].
  rewrite Hres. cbn. discriminate.
Qed.

(** Whatever the array and the context hold, what the resolver assigns for
    an array is an object. *)
Lemma resolveValue_array_is_object vars items :
  exists fields, resolveValue vars (VArr items) = VObj fields.
Proof. eexists. reflexivity. Qed.

(** C9.  The resolver does recurse into an array: the test
    [typeof value === 'object'] lets it through, its indices are
    enumerated like property names, the references inside are resolved,
    and what comes out is an object, not the array. *)
Theorem resolveParameters_rewrites_arrays :
  resolveParameters [("fields", VArr [VStr "$step.s1.result"; VStr "name"])]
                    (<["step.s1.result" := VStr "id"]> ∅)
  = [("fields", VObj [("0", VStr "id"); ("1", VStr "name")])].
Proof. vm_compute. reflexivity. Qed.

End ResolverFacts.

(** ** Step execution *)

Module StepFacts.
Import Js ToolRegistry BaseAgent Examples.


Lemma executeStep_status env step ctx w :
  let '(step', _, _) := executeStep env step ctx w in
  (step_status step' = completed \/ step_status step' = failed)
  /\ step_id step' = step_id step.
Proof.
  unfold executeStep.
  destruct (ToolRegistry.execute _ _ _ _) as [result w1].
  destruct (success result); cbn; auto.
Qed.

(** The registry's answer, in full, when the capability is invoked and
    fulfils. *)
Lemma execute_fulfilled_result tools name params w tool result :
  get tools name = Some tool ->
  missingParams tool params = [] ->
  outcome (tool_execute tool (applyDefaults tool params)) = Ok result ->
  ToolRegistry.execute tools name params w
  = ({| success := success result; data := data result; error := error result;
        metadata :=
          Some (withExecutionTime
                  (metadata result)
                  (elapsedMs (tool_execute tool (applyDefaults tool params)))) |},
     tick (elapsedMs (tool_execute tool (applyDefaults tool params)))
          (record_call name (applyDefaults tool params) w)).
Proof.
  intros Hget Hmiss Hout. unfold ToolRegistry.execute. rewrite Hget, Hmiss.
  cbn [length Nat.ltb Nat.leb]. rewrite Hout. cbn [tick record_call now].
  replace (now w + elapsedMs (tool_execute tool (applyDefaults tool params))
           - now w)
    with (elapsedMs (tool_execute tool (applyDefaults tool params))) by lia.
  reflexivity.
Qed.

(** C10.  A step whose tool fulfils with [success: true] and no data is
    marked completed, and the ToolResult of that invocation - the tool's
    result with the measured [executionTimeMs] in its metadata - is what
    [stepResults] holds under the step's id afterwards; but the context's
    variables are left as they were.  So, when nothing was stored under the
    step's key before, a later parameter [$step.<stepId>.result] resolves
    to that very string.  (The parameter may have any name but
    [__proto__], which is no ordinary property name.) *)
Theorem executeStep_without_data_registers_no_variable
        (env : Env) (step : TaskStep) (ctx : ExecutionContext) (w : World)
        (tool : ToolDefinition) (result : ToolResult) :
  let resolved := resolveParameters (parameters step) (variables ctx) in
  let run := tool_execute tool (applyDefaults tool resolved) in
  ToolRegistry.get (tools env) (toolName step) = Some tool ->
  missingParams tool resolved = [] ->
  outcome run = Ok result ->
  success result = true ->
  data result = VUndefined ->
  let '(step', ctx', _) := executeStep env step ctx w in
  step_status step' = completed
  /\ step_result step' = VUndefined
  /\ stepResults ctx'
     = <[step_id step :=
           {| success := true; data := VUndefined; error := error result;
              metadata := Some (withExecutionTime (metadata result)
                                                  (elapsedMs run)) |}]>
         (stepResults ctx)
  /\ variables ctx' = variables ctx
  /\ (variables ctx !! ("step." ++ step_id step ++ ".result") = None ->
      forall k,
        k <> "__proto__" ->
        resolveParameters [(k, VStr ("$step." ++ step_id step ++ ".result"))]
                          (variables ctx')
        = [(k, VStr ("$step." ++ step_id step ++ ".result"))]).
Proof.
  intros resolved run Hget Hmiss Hout Hsucc Hdata.
  unfold executeStep. cbn [parameters toolName set_step step_id].
  fold resolved.
  rewrite (execute_fulfilled_result _ _ _ _ tool result Hget Hmiss Hout).
  fold run. cbn [success data]. rewrite Hsucc, Hdata.
  cbn [is_undefined negb step_status step_result set_step stepResults variables
       step_id].
  repeat (split; [reflexivity|]).
  intros Habsent k _. unfold resolveParameters. cbn [map fst snd].
  rewrite ResolverFacts.resolveValue_reference. unfold map_get.
  rewrite Habsent. reflexivity.
Qed.

Lemma executeStep_without_data_registers_no_variable_witness :
  let '(step', ctx', _) :=
    executeStep noopEnv noopStep emptyContext epoch in
  step_status step' = completed
  /\ step_result step' = VUndefined
  /\ stepResults ctx'
     = <["step_1" :=
           {| success := true; data := VUndefined; error := None;
              metadata := Some [("executionTimeMs", VNum 3)] |}]> ∅
  /\ variables ctx' = ∅
  /\ ((∅ : gmap string value) !! "step.step_1.result" = None ->
      forall k,
        k <> "__proto__" ->
        resolveParameters [(k, VStr "$step.step_1.result")] (variables ctx')
        = [(k, VStr "$step.step_1.result")]).
Proof.
  apply (executeStep_without_data_registers_no_variable
           noopEnv noopStep emptyContext epoch noop
           {| success := true; data := VUndefined;
              error := None; metadata := None |});
    reflexivity.
Defined.

End StepFacts.

(** ** The task state machine *)

Module AgentFacts.
Import Js BaseAgent Examples.

Lemma TaskStatus_eqb_eq a b : TaskStatus_eqb a b = true <-> a = b.
Proof. destruct a, b; simpl; split; congruence. Qed.

Lemma executeSteps_exit env todo :
  forall err ctx w,
    LoopExit todo err (fst (executeSteps env todo executing err ctx w)).
Proof.
  induction todo as [|step rest IH]; intros err ctx w.
  - apply AllCompleted; simpl; auto.
  - cbn [executeSteps TaskStatus_eqb negb].
    pose proof (StepFacts.executeStep_status env step ctx w) as Hst.
    destruct (executeStep env step ctx w) as [[step' ctx'] w'].
    destruct Hst as [[Hc | Hf] _].
    + rewrite Hc. cbn [TaskStatus_eqb].
      specialize (IH err ctx' w').
      destruct (executeSteps env rest executing err ctx' w') as [p w''].
      cbn [fst] in *.
      destruct IH as [Hs He Hall Hlen
                     | done f before rest' Hs Ht Hlen Hall Hf Hst He].
      * apply AllCompleted; cbn; auto; congruence.
      * apply (StoppedAtFailure _ _ _ (step' :: done) f (step :: before) rest');
          cbn; auto; try congruence.
    + rewrite Hf. cbn [TaskStatus_eqb fst].
      apply (StoppedAtFailure _ _ _ [] step' [step] rest); cbn; auto.
Qed.

(** What [execute] returns for a valid input, by the outcome of [plan]. *)
Lemma execute_valid plan env raw w validatedInput :
  Schema.TaskInputSchema_parse raw = Ok validatedInput ->
  exists task w0,
    status task = planning /\ steps task = []
    /\ input task = validatedInput
    /\ match plan env task w0 with
       | (Throw e, _) =>
           exists t, fst (execute plan env raw w) = Ok t
                     /\ status t = failed /\ steps t = []
                     /\ task_error t = Some (messageOr "Unknown error" e)
       | (Ok planned, _) =>
           exists ctx w1 t,
             let p := fst (executeSteps env planned executing None ctx w1) in
             fst (execute plan env raw w) = Ok t
             /\ steps t = p_steps p
             /\ task_error t = p_error p
             /\ status t = (if TaskStatus_eqb (p_status p) executing
                            then completed else p_status p)
       end.
Proof.
  intros Hparse. unfold execute. rewrite Hparse.
  destruct (generateId env "task" w) as [id w1].
  cbn [set_task task_id status steps task_result task_error].
  match goal with |- context [plan env ?t ?w0] =>
    exists t, w0; destruct (plan env t w0) as [[planned|e] w2] end;
    (split; [reflexivity|]); (split; [reflexivity|]); (split; [reflexivity|]).
  - cbn [set_task task_id status steps task_result task_error].
    match goal with |- context [executeSteps env planned executing None ?c ?w0] =>
      exists c, w0; destruct (executeSteps env planned executing None c w0)
        as [p w3] end.
    cbn [fst set_task task_id status steps task_result task_error].
    destruct (TaskStatus_eqb (p_status p) executing); eexists; cbn; eauto.
  - eexists. cbn. eauto.
Qed.

(** *** Planning *)

Lemma convertSteps_pending env planned :
  forall index w,
    Forall isPending (fst (AutomationAgent.convertSteps env index planned w))
    /\ length (fst (AutomationAgent.convertSteps env index planned w))
       = length planned.
Proof.
  induction planned as [|step rest IH]; intros index w; cbn.
  - split; [constructor | reflexivity].
  - specialize (IH (S index) (fresh_id w)).
    destruct (AutomationAgent.convertSteps env (S index) rest (fresh_id w))
      as [converted w'].
    cbn in *. destruct IH as [Hall Hlen].
    split; [constructor; [reflexivity | exact Hall] | congruence].
Qed.

Lemma createSimplePlan_single env task w :
  exists step, fst (AutomationAgent.createSimplePlan env task w) = [step]
               /\ isPending step.
Proof.
  unfold AutomationAgent.createSimplePlan.
  destruct (find _ _) as [matched|]; [destruct (String.eqb matched "")|];
    cbn; eexists; split; reflexivity.
Qed.

(** [plan] never throws; it returns pending steps: one when no tool is
    registered or the planner call fails, the planner's otherwise. *)
Lemma plan_returns env task w :
  exists planned,
    fst (AutomationAgent.plan env task w) = Ok planned
    /\ Forall isPending planned
    /\ match tools env, createAIPlan env task (tools env) with
       | [], _ | _, Throw _ => length planned = 1%nat
       | _ :: _, Ok planningResult =>
           length planned = length (plan_steps planningResult)
       end.
Proof.
  unfold AutomationAgent.plan, ToolRegistry.getAll.
  destruct (createSimplePlan_single env task w) as (simple & Hs & Hp).
  destruct (tools env) as [|tool more] eqn:Htools; cbn [length Nat.eqb].
  - destruct (AutomationAgent.createSimplePlan env task w) as [ss w'].
    cbn in *. subst ss. exists [simple]. repeat split. repeat constructor. exact Hp.
  - destruct (createAIPlan env task (tool :: more)) as [planningResult|e].
    + unfold AutomationAgent.convertPlanToSteps.
      destruct (convertSteps_pending env (plan_steps planningResult) 0%nat w)
        as [Hall Hlen].
      destruct (AutomationAgent.convertSteps env 0 (plan_steps planningResult) w)
        as [converted w'].
      cbn in *. exists converted. auto.
    + destruct (AutomationAgent.createSimplePlan env task w) as [ss w'].
      cbn in *. subst ss. exists [simple]. repeat split. repeat constructor. exact Hp.
Qed.

(** *** Claims about [execute] *)



(** What the automation agent returns for a valid input: the planned steps,
    all pending, and how the loop over them was left. *)
Lemma automation_execute_valid env raw w validatedInput :
  Schema.TaskInputSchema_parse raw = Ok validatedInput ->
  exists task w0 planned p t,
    input task = validatedInput
    /\ fst (AutomationAgent.plan env task w0) = Ok planned
    /\ Forall isPending planned
    /\ LoopExit planned None p
    /\ fst (AutomationAgent.execute env raw w) = Ok t
    /\ steps t = p_steps p
    /\ task_error t = p_error p
    /\ status t = (if TaskStatus_eqb (p_status p) executing
                   then completed else p_status p).
Proof.
  intros Hparse.
  destruct (execute_valid AutomationAgent.plan env raw w validatedInput Hparse)
    as (task & w0 & _ & _ & Hin & Hcase).
  destruct (plan_returns env task w0) as (planned & Hplan & Hpend & _).
  destruct (AutomationAgent.plan env task w0) as [[planned'|e] w1] eqn:Hp;
    cbn [fst] in Hplan; [|discriminate].
  injection Hplan as ->.
  destruct Hcase as (ctx & w2 & t & Ht & Hsteps & Herr & Hst).
  exists task, w0, planned, (fst (executeSteps env planned executing None ctx w2)), t.
  repeat split; auto; try apply executeSteps_exit.
  rewrite Hp. reflexivity.
Qed.

Lemma execute_ok_parses plan env raw w t :
  fst (execute plan env raw w) = Ok t ->
  exists validatedInput, Schema.TaskInputSchema_parse raw = Ok validatedInput.
Proof.
  unfold execute.
  destruct (Schema.TaskInputSchema_parse raw) as [validatedInput|e]; [eauto|].
  cbn. discriminate.
Qed.

(** C2.  The returned task is [completed] exactly when every step is
    [completed]; and when a step is [failed], the task is [failed] with
    that step's error and every later step is still [pending]. *)
Theorem task_status_follows_steps
        (env : Env) (raw : value) (w : World) (t : Task) :
  fst (AutomationAgent.execute env raw w) = Ok t ->
  (status t = completed <-> Forall isCompleted (steps t))
  /\ (forall i s,
         steps t !! i = Some s ->
         step_status s = failed ->
         status t = failed
         /\ task_error t = step_error s
         /\ forall j s', (i < j)%nat -> steps t !! j = Some s' -> isPending s').
Proof.
  intros Hok.
  destruct (execute_ok_parses _ _ _ _ _ Hok) as [validatedInput Hparse].
  destruct (automation_execute_valid env raw w validatedInput Hparse)
    as (task & w0 & planned & p & t' & _ & _ & Hpend & Hexit & Ht' & Hsteps & Herr & Hst).
  assert (t' = t) as -> by congruence.
  destruct Hexit as [Hs He Hall Hlen
                    | done f before rest Hp Htodo Hlen Hall Hf Hs He].
  - rewrite Hs in Hst. cbn in Hst. rewrite Hsteps. split.
    + split; auto.
    + intros i s Hi Hfail.
      assert (isCompleted s) as Hc.
      { eapply Forall_lookup_1; eauto. }
      unfold isCompleted in Hc. congruence.
  - rewrite Hs in Hst. cbn in Hst. rewrite Hsteps, Hp.
    assert (Forall isPending rest) as Hrest.
    { rewrite Htodo in Hpend. apply Forall_app in Hpend. tauto. }
    split.
    + split; [congruence|].
      intros Hc. apply Forall_app in Hc as [_ Hc].
      apply Forall_cons in Hc as [Hc _]. unfold isCompleted in Hc. congruence.
    + intros i s Hi Hfail.
      assert (i = length done /\ s = f) as [-> ->].
      { apply lookup_app_Some in Hi as [Hi | [Hge Hi]].
        - assert (isCompleted s) as Hc by (eapply Forall_lookup_1; eauto).
          unfold isCompleted in Hc. congruence.
        - destruct (i - length done)%nat as [|n] eqn:Hn; cbn in Hi.
          + split; [lia | congruence].
          + assert (isPending s) as Hc by (eapply Forall_lookup_1; eauto).
            unfold isPending in Hc. congruence. }
      split; [exact Hst|]. split; [congruence|].
      intros j s' Hj Hs'.
      apply lookup_app_Some in Hs' as [Hs' | [Hge Hs']].
      * apply lookup_lt_Some in Hs'. lia.
      * destruct (j - length done)%nat as [|n] eqn:Hn; [lia|]. cbn in Hs'.
        eapply Forall_lookup_1; eauto.
Qed.

Lemma task_status_follows_steps_witness :
  exists t,
    fst (AutomationAgent.execute failingEnv addThirtyDays epoch) = Ok t
    /\ (status t = completed <-> Forall isCompleted (steps t))
    /\ (forall i s,
           steps t !! i = Some s ->
           step_status s = failed ->
           status t = failed
           /\ task_error t = step_error s
           /\ forall j s', (i < j)%nat -> steps t !! j = Some s' -> isPending s').
Proof.
  eexists. split; [vm_compute; reflexivity|].
  apply (task_status_follows_steps failingEnv addThirtyDays epoch).
  vm_compute. reflexivity.
Defined.

(** C5, as stated, fails: with no tool registered the fallback step names
    the tool [analyze_text], which the registry does not know, so the step
    and the task fail. *)
Lemma scenario_without_tools_is_not_completed :
  ~ (forall env w,
        tools env = [] ->
        exists t, fst (AutomationAgent.execute env addThirtyDays w) = Ok t
                  /\ length (steps t) = 1%nat
                  /\ status t = completed).
Proof.
  intros H.
  destruct (H failingEnv epoch eq_refl) as (t & Ht & _ & Hst).
  vm_compute in Ht. injection Ht as <-. discriminate.
Qed.

(** C5, amended.  With no tool registered the task
    [{description: "add 30 days", context: {}}] gets a plan of exactly one
    fallback step, for the tool [analyze_text]; that tool is not registered,
    so the step fails and the returned Task's status is [failed], with the
    error [Tool 'analyze_text' not found]. *)
Theorem scenario_without_tools_fails (env : Env) (w : World) :
  tools env = [] ->
  exists t step,
    fst (AutomationAgent.execute env addThirtyDays w) = Ok t
    /\ steps t = [step]
    /\ toolName step = "analyze_text"
    /\ parameters step = [("text", VStr "add 30 days")]
    /\ step_status step = failed
    /\ status t = failed
    /\ task_error t = Some "Tool 'analyze_text' not found".
Proof.
  intros Htools.
  unfold AutomationAgent.execute, execute.
  cbn [Schema.TaskInputSchema_parse addThirtyDays].
  cbv beta iota zeta delta [Schema.TaskInputSchema_parse addThirtyDays
    obj_get String.eqb Ascii.eqb Bool.eqb Schema.parsePriority
    Schema.parseContext Schema.parsePositiveInt String.length Nat.leb].
  cbn [generateId set_task task_id status steps task_result task_error input].
  unfold AutomationAgent.plan, ToolRegistry.getAll.
  rewrite Htools. cbn [length Nat.eqb].
  unfold AutomationAgent.createSimplePlan, ToolRegistry.getNames.
  rewrite Htools.
  cbn [map find generateId input description set_task task_id status steps
       task_result task_error executeSteps TaskStatus_eqb negb].
  unfold executeStep, ToolRegistry.execute, ToolRegistry.get.
  rewrite Htools.
  cbn [find toolName parameters AutomationAgent.pendingStep set_step success
       step_status TaskStatus_eqb fst snd p_status p_steps p_error
       set_task task_id status steps task_result task_error error step_error].
  eexists. eexists. repeat split.
Qed.

Lemma scenario_without_tools_fails_witness :
  tools failingEnv = []
  /\ exists t step,
      fst (AutomationAgent.execute failingEnv addThirtyDays epoch)
      = Ok t
      /\ steps t = [step]
      /\ toolName step = "analyze_text"
      /\ parameters step = [("text", VStr "add 30 days")]
      /\ step_status step = failed
      /\ status t = failed
      /\ task_error t = Some "Tool 'analyze_text' not found".
Proof.
  split; [reflexivity|].
  apply (scenario_without_tools_fails failingEnv epoch).
  reflexivity.
Defined.

(** C6, as stated, fails: an empty plan is executed like any other, the
    loop has nothing to do, and the task completes with zero steps and no
    error. *)
Lemma empty_plan_completes :
  exists t,
    fst (AutomationAgent.execute emptyPlanEnv summarize epoch) = Ok t
    /\ steps t = []
    /\ status t = completed
    /\ ~ (steps t <> []
          \/ (status t = failed /\ task_error t = Some "no steps produced")).
Proof.
  eexists. split; [vm_compute; reflexivity|].
  split; [reflexivity|]. split; [reflexivity|].
  cbn. intros [H | [H _]]; [apply H; reflexivity | discriminate].
Qed.

(** What [execute] returns for a valid input, by the outcome of the call of
    [plan] it makes: the call is for the task [planningTask]. *)
Lemma execute_valid_for plan env raw w validatedInput :
  Schema.TaskInputSchema_parse raw = Ok validatedInput ->
  exists w0,
    match plan env (planningTask env validatedInput w) w0 with
    | (Throw e, _) =>
        exists t, fst (execute plan env raw w) = Ok t
                  /\ status t = failed /\ steps t = []
                  /\ task_error t = Some (messageOr "Unknown error" e)
    | (Ok planned, _) =>
        exists ctx w1 t,
          let p := fst (executeSteps env planned executing None ctx w1) in
          fst (execute plan env raw w) = Ok t
          /\ steps t = p_steps p
          /\ task_error t = p_error p
          /\ status t = (if TaskStatus_eqb (p_status p) executing
                         then completed else p_status p)
    end.
Proof.
  intros Hparse. unfold execute, planningTask, generateId. rewrite Hparse.
  unfold set_task.
  cbn [fst task_id status steps task_result task_error input task_metadata].
  match goal with |- context [let (_, _) := plan env ?t ?w0 in _] =>
    exists w0; destruct (plan env t w0) as [[planned|e] w2] end.
  - match goal with |- context [executeSteps env planned executing None ?c ?w0] =>
      exists c, w0; destruct (executeSteps env planned executing None c w0)
        as [p w3] end.
    cbn [fst].
    destruct (TaskStatus_eqb (p_status p) executing); eexists; cbn; eauto.
  - eexists. cbn. eauto.
Qed.

(** C6, amended.  Planning never aborts the task: [execute] returns a task
    for every valid input.  The planner is called for the task being
    executed, [planningTask], with the registered tools.  When no tool is
    registered, or that call fails, the task has the single step of the
    fallback plan; otherwise it has as many steps as that call returned,
    and when it returned none the task is [completed] with no step and no
    error. *)
Theorem planning_never_aborts
        (env : Env) (raw : value) (w : World) (validatedInput : TaskInput) :
  Schema.TaskInputSchema_parse raw = Ok validatedInput ->
  exists t,
    fst (AutomationAgent.execute env raw w) = Ok t
    /\ (status t = completed \/ status t = failed)
    /\ match tools env,
             createAIPlan env (planningTask env validatedInput w) (tools env) with
       | [], _ | _, Throw _ => length (steps t) = 1%nat
       | _ :: _, Ok planningResult =>
           length (steps t) = length (plan_steps planningResult)
           /\ (plan_steps planningResult = [] ->
               steps t = [] /\ status t = completed /\ task_error t = None)
       end.
Proof.
  intros Hparse.
  destruct (execute_valid_for AutomationAgent.plan env raw w validatedInput Hparse)
    as (w0 & Hcase).
  destruct (plan_returns env (planningTask env validatedInput w) w0)
    as (planned & Hplan & _ & Hcount).
  destruct (AutomationAgent.plan env (planningTask env validatedInput w) w0)
    as [[planned'|e] w1]; cbn [fst] in Hplan; [|discriminate].
  injection Hplan as ->.
  destruct Hcase as (ctx & w2 & t & Ht & Hsteps & Herr & Hst).
  pose proof (executeSteps_exit env planned None ctx w2) as Hexit.
  assert (length (steps t) = length planned) as Hlen.
  { rewrite Hsteps.
    destruct Hexit as [_ _ _ Hl | done f before rest Hp Htodo Hl _ _ _ _]; [exact Hl|].
    rewrite Hp, Htodo. rewrite !length_app. cbn. lia. }
  exists t. split; [exact Ht|]. split.
  - rewrite Hst.
    destruct Hexit as [Hs _ _ _ | ? ? ? ? _ _ _ _ _ Hs _]; rewrite Hs; cbn; auto.
  - destruct (tools env) as [|tool more]; [congruence|].
    destruct (createAIPlan env (planningTask env validatedInput w) (tool :: more))
      as [planningResult|e]; [|congruence].
    split; [congruence|].
    intros Hnone. rewrite Hnone in Hcount. cbn in Hcount.
    rewrite Hcount in Hlen.
    destruct planned; [|discriminate].
    cbn in Hsteps, Herr, Hst. auto.
Qed.

Lemma planning_never_aborts_witness :
  Schema.TaskInputSchema_parse summarize
  = Ok {| description := "summarize"; priority := medium; context := None;
          maxSteps := 10; timeoutMs := 60000 |}
  /\ exists t,
      fst (AutomationAgent.execute emptyPlanEnv summarize epoch) = Ok t
      /\ (status t = completed \/ status t = failed)
      /\ steps t = [] /\ status t = completed /\ task_error t = None.
Proof.
  split; [reflexivity|].
  destruct (planning_never_aborts
              emptyPlanEnv summarize epoch
              {| description := "summarize"; priority := medium; context := None;
                 maxSteps := 10; timeoutMs := 60000 |} eq_refl)
    as (t & Ht & Hst & Hcount).
  exists t. split; [exact Ht|]. split; [exact Hst|].
  apply (proj2 Hcount). reflexivity.
Defined.

End AgentFacts.

(** ** Identifiers *)

Module IdFacts.
Import Js Id.

Lemma startsWith_split s p :
  startsWith s p = true -> exists rest, s = p ++ rest.
Proof.
  unfold startsWith. revert s.
  induction p as [|c p IH]; intros s H.
  - exists s. reflexivity.
  - destruct s as [|d s]; simpl in H; [discriminate|].
    destruct (ascii_dec c d) as [->|]; [|discriminate].
    destruct (IH s H) as [rest ->]. exists rest. reflexivity.
Qed.

Lemma startsWith_append p rest : startsWith (p ++ rest) p = true.
Proof.
  unfold startsWith. induction p as [|c p IH]; simpl.
  - destruct rest; reflexivity.
  - destruct (ascii_dec c c); [exact IH | congruence].
Qed.

(** X1.  An id made by [generateId] for a kind is recognised as that kind:
    [getIdPrefix] gives the kind back and [isValidId] accepts the id, with
    and without the kind, whatever the random part is. *)
Theorem generated_id_is_recognised (env : Env) (prefix : IdPrefix) (w : World) :
  let id := fst (generate env prefix w) in
  getIdPrefix id = Some prefix
  /\ isValidId id (Some prefix) = true
  /\ isValidId id None = true.
Proof.
  unfold generate, generateId. cbn [fst].
  generalize (nanoid env (nextId w)). intros n.
  destruct prefix; repeat split;
    unfold getIdPrefix, isValidId, PREFIXES_entries, startsWith;
    cbn; repeat (destruct (ascii_dec _ _); try congruence);
    destruct n; reflexivity.
Qed.

(** X2.  The kinds exclude each other: [isValidId(id, p)] holds exactly when
    [getIdPrefix(id)] is [p], and [isValidId(id)] without a kind holds
    exactly when [getIdPrefix(id)] is not null. *)
Theorem isValidId_agrees_with_getIdPrefix (id : string) :
  (forall p, isValidId id (Some p) = true <-> getIdPrefix id = Some p)
  /\ (isValidId id None = true <-> getIdPrefix id <> None).
Proof.
  assert (Hall : forall p, isValidId id (Some p) = true -> getIdPrefix id = Some p).
  { intros p H. unfold isValidId in H.
    destruct (startsWith_split _ _ H) as [rest ->].
    destruct p; unfold getIdPrefix, PREFIXES_entries, startsWith; cbn;
      repeat (destruct (ascii_dec _ _); try congruence);
      destruct rest; reflexivity. }
  assert (Hfind : forall p, getIdPrefix id = Some p -> isValidId id (Some p) = true).
  { intros p H. unfold getIdPrefix in H.
    destruct (find _ PREFIXES_entries) as [[k v]|] eqn:Hf; [|discriminate].
    apply find_some in Hf as [Hin Hs]. cbn in H. injection H as ->.
    unfold PREFIXES_entries in Hin. cbn in Hin.
    unfold isValidId.
    destruct Hin as [E|[E|[E|[E|[]]]]]; injection E as <- <-; exact Hs. }
  split.
  - intros p. split; auto.
  - split.
    + intros H. unfold isValidId in H. apply existsb_exists in H as (v & Hin & Hs).
      unfold PREFIXES_entries in Hin. cbn in Hin.
      destruct Hin as [<-|[<-|[<-|[<-|[]]]]].
      * rewrite (Hall PTask Hs). discriminate.
      * rewrite (Hall PStep Hs). discriminate.
      * rewrite (Hall PTool Hs). discriminate.
      * rewrite (Hall PEvent Hs). discriminate.
    + intros H. destruct (getIdPrefix id) as [p|] eqn:Hp; [|congruence].
      specialize (Hfind p eq_refl). unfold isValidId in *.
      apply existsb_exists. exists (PREFIXES p).
      split; [|exact Hfind].
      unfold PREFIXES_entries. cbn. destruct p; cbn; tauto.
Qed.

End IdFacts.

(** ** Registration and lookup *)

Module RegistrationFacts.
Import Js ToolRegistry.

Lemma get_cons t tools name :
  get (t :: tools) name
  = if String.eqb (tool_name t) name then Some t else get tools name.
Proof. reflexivity. Qed.

Lemma get_register tool tools name :
  get (register tool tools) name
  = if String.eqb (tool_name tool) name then Some tool else get tools name.
Proof.
  induction tools as [|t rest IH]; cbn [register].
  - rewrite get_cons. reflexivity.
  - destruct (String.eqb (tool_name t) (tool_name tool)) eqn:E.
    + rewrite !get_cons. apply String.eqb_eq in E. rewrite E.
      destruct (String.eqb (tool_name tool) name); reflexivity.
    + rewrite !get_cons, IH.
      destruct (String.eqb (tool_name t) name) eqn:E2; [|reflexivity].
      apply String.eqb_eq in E2. subst name. rewrite String.eqb_sym, E.
      reflexivity.
Qed.

Lemma has_get tools name : has tools name = true <-> get tools name <> None.
Proof.
  unfold has, get. induction tools as [|t rest IH]; cbn.
  - split; [discriminate | congruence].
  - destruct (String.eqb (tool_name t) name); cbn; [|exact IH].
    split; [discriminate | reflexivity].
Qed.

Lemma has_In tools name : has tools name = true <-> In name (getNames tools).
Proof.
  unfold has, getNames. induction tools as [|t rest IH]; cbn.
  - split; [discriminate | tauto].
  - destruct (String.eqb (tool_name t) name) eqn:E; cbn.
    + apply String.eqb_eq in E. tauto.
    + apply String.eqb_neq in E. rewrite IH. tauto.
Qed.

Lemma register_fresh tool tools :
  has tools (tool_name tool) = false ->
  register tool tools = (tools ++ [tool])%list.
Proof.
  unfold has. induction tools as [|t rest IH]; cbn; [reflexivity|].
  destruct (String.eqb (tool_name t) (tool_name tool)); cbn; [discriminate|].
  intros H. rewrite IH by exact H. reflexivity.
Qed.

Lemma getNames_register tool tools :
  getNames (register tool tools)
  = if has tools (tool_name tool) then getNames tools
    else (getNames tools ++ [tool_name tool])%list.
Proof.
  unfold has, getNames. induction tools as [|t rest IH]; cbn; [reflexivity|].
  destruct (String.eqb (tool_name t) (tool_name tool)) eqn:E; cbn.
  - apply String.eqb_eq in E. rewrite E. reflexivity.
  - rewrite IH. destruct (existsb _ rest); reflexivity.
Qed.

Lemma register_NoDup tool tools :
  NoDup (getNames tools) -> NoDup (getNames (register tool tools)).
Proof.
  intros Hnd. rewrite getNames_register.
  destruct (has tools (tool_name tool)) eqn:Hhas; [exact Hnd|].
  apply NoDup_app. split; [exact Hnd|]. split.
  - intros x Hx Hx'. apply list_elem_of_In in Hx.
    apply list_elem_of_singleton in Hx'. subst x.
    apply has_In in Hx. congruence.
  - apply NoDup_singleton.
Qed.

(** X3.  [register] followed by [get]: the name just registered yields the
    tool just registered, also when it replaced one, and every other name
    yields what it did before.  A replaced tool keeps its place among the
    names, a new one comes last. *)
Theorem register_then_get (tool : ToolDefinition) (tools : list ToolDefinition) :
  get (register tool tools) (tool_name tool) = Some tool
  /\ (forall name, name <> tool_name tool ->
                   get (register tool tools) name = get tools name)
  /\ getNames (register tool tools)
     = (if has tools (tool_name tool) then getNames tools
        else getNames tools ++ [tool_name tool])%list.
Proof.
  split; [|split].
  - rewrite get_register, String.eqb_refl. reflexivity.
  - intros name Hne. rewrite get_register.
    destruct (String.eqb (tool_name tool) name) eqn:E; [|reflexivity].
    apply String.eqb_eq in E. congruence.
  - apply getNames_register.
Qed.

Lemma find_snoc {A} (f : A -> bool) (l : list A) (x : A) :
  find f (l ++ [x])%list
  = match find f l with
    | Some y => Some y
    | None => if f x then Some x else None
    end.
Proof.
  induction l as [|y l IH]; cbn; [reflexivity|].
  destruct (f y); [reflexivity | exact IH].
Qed.

Lemma get_registerMany many :
  forall tools name,
    get (registerMany many tools) name
    = match find (fun t => String.eqb (tool_name t) name) (rev many) with
      | Some t => Some t
      | None => get tools name
      end.
Proof.
  induction many as [|t rest IH]; intros tools name; [reflexivity|].
  cbn [registerMany fold_left rev].
  change (fold_left _ rest (register t tools))
    with (registerMany rest (register t tools)).
  rewrite IH, find_snoc, get_register.
  destruct (find _ (rev rest)); [reflexivity|].
  destruct (String.eqb (tool_name t) name); reflexivity.
Qed.

Lemma registerMany_NoDup many :
  forall tools, NoDup (getNames tools) ->
                NoDup (getNames (registerMany many tools)).
Proof.
  induction many as [|t rest IH]; intros tools Hnd; [exact Hnd|].
  cbn [registerMany fold_left]. apply IH, register_NoDup, Hnd.
Qed.

(** X4.  After [registerMany] on an empty registry no name is listed twice,
    and a name yields the last tool of the list that bears it, or nothing
    when no tool of the list does. *)
Theorem registerMany_last_wins (many : list ToolDefinition) (name : string) :
  NoDup (getNames (registerMany many []))
  /\ get (registerMany many []) name
     = find (fun t => String.eqb (tool_name t) name) (rev many).
Proof.
  split.
  - apply registerMany_NoDup. constructor.
  - rewrite get_registerMany. destruct (find _ (rev many)); reflexivity.
Qed.

Lemma get_filter_out name tools other :
  get (List.filter (fun t => negb (String.eqb (tool_name t) name)) tools) other
  = if String.eqb name other then None else get tools other.
Proof.
  induction tools as [|t rest IH]; cbn [List.filter].
  - destruct (String.eqb name other); reflexivity.
  - destruct (String.eqb (tool_name t) name) eqn:E; cbn [negb].
    + rewrite IH, get_cons. apply String.eqb_eq in E. rewrite E.
      destruct (String.eqb name other); reflexivity.
    + rewrite !get_cons, IH.
      destruct (String.eqb (tool_name t) other) eqn:E2; [|reflexivity].
      apply String.eqb_eq in E2. subst other. rewrite String.eqb_sym, E.
      reflexivity.
Qed.

Lemma filter_out_absent name tools :
  has tools name = false ->
  List.filter (fun t => negb (String.eqb (tool_name t) name)) tools = tools.
Proof.
  unfold has. induction tools as [|t rest IH]; cbn; [reflexivity|].
  destruct (String.eqb (tool_name t) name); cbn; [discriminate|].
  intros H. rewrite IH by exact H. reflexivity.
Qed.

(** X5.  [unregister(name)] reports whether the name was registered; after
    it the name yields nothing and every other name yields what it did
    before; unregistering an unknown name changes nothing, and
    unregistering a tool just registered under a new name gives the
    registry back. *)
Theorem unregister_then_get (name : string) (tools : list ToolDefinition) :
  fst (unregister name tools) = has tools name
  /\ get (snd (unregister name tools)) name = None
  /\ (forall other, other <> name ->
                    get (snd (unregister name tools)) other = get tools other)
  /\ (has tools name = false -> snd (unregister name tools) = tools)
  /\ (forall tool,
         tool_name tool = name -> has tools name = false ->
         snd (unregister name (register tool tools)) = tools).
Proof.
  unfold unregister. cbn [fst snd]. split; [reflexivity|]. split; [|split; [|split]].
  - rewrite get_filter_out, String.eqb_refl. reflexivity.
  - intros other Hne. rewrite get_filter_out.
    destruct (String.eqb name other) eqn:E; [|reflexivity].
    apply String.eqb_eq in E. congruence.
  - apply filter_out_absent.
  - intros tool <- Hfresh. rewrite (register_fresh tool tools Hfresh).
    rewrite List.filter_app. cbn. rewrite String.eqb_refl. cbn.
    rewrite app_nil_r. apply filter_out_absent, Hfresh.
Qed.

End RegistrationFacts.

(** ** What the registry hands to a tool *)

Module InvocationFacts.
Import Js ToolRegistry.

Lemma obj_has_set_other k k' v o :
  k <> k' -> obj_has k (obj_set k' v o) = obj_has k o.
Proof.
  intros Hne. induction o as [|[k0 v0] o IH]; cbn.
  - apply String.eqb_neq in Hne. rewrite Hne. reflexivity.
  - destruct (String.eqb k' k0) eqn:E; cbn.
    + apply String.eqb_eq in E. subst k0.
      apply String.eqb_neq in Hne. rewrite Hne. reflexivity.
    + rewrite IH. reflexivity.
Qed.

Lemma obj_get_set_other k k' v o :
  k <> k' -> obj_get k (obj_set k' v o) = obj_get k o.
Proof.
  intros Hne. induction o as [|[k0 v0] o IH]; cbn.
  - apply String.eqb_neq in Hne. rewrite Hne. reflexivity.
  - destruct (String.eqb k' k0) eqn:E; cbn.
    + apply String.eqb_eq in E. subst k0.
      apply String.eqb_neq in Hne. rewrite Hne. reflexivity.
    + rewrite IH. reflexivity.
Qed.

Lemma applyDefaults_fold tool params :
  applyDefaults tool params = fold_left defaultStep (tool_parameters tool) params.
Proof. reflexivity. Qed.

Lemma has_in_own k o : obj_has k o = true -> has_in k o = true.
Proof. unfold has_in. intros ->. reflexivity. Qed.

Lemma has_in_false k o :
  has_in k o = false -> obj_has k o = false /\ inherited k = false.
Proof. unfold has_in. apply orb_false_iff. Qed.

Lemma defaultStep_keeps acc param k :
  obj_has k acc = true ->
  obj_has k (defaultStep acc param) = true
  /\ obj_get k (defaultStep acc param) = obj_get k acc.
Proof.
  intros Hk. unfold defaultStep.
  destruct (has_in (param_name param) acc) eqn:Hp; cbn; [auto|].
  destruct (is_undefined (default param)); cbn; [auto|].
  apply has_in_false in Hp as [Hp _].
  assert (k <> param_name param) by congruence.
  rewrite obj_has_set_other, obj_get_set_other by assumption. auto.
Qed.

Lemma defaults_keep ps :
  forall acc k,
    obj_has k acc = true ->
    obj_has k (fold_left defaultStep ps acc) = true
    /\ obj_get k (fold_left defaultStep ps acc) = obj_get k acc.
Proof.
  induction ps as [|p ps IH]; intros acc k Hk; cbn [fold_left]; [auto|].
  destruct (defaultStep_keeps acc p k Hk) as [Hh Hg].
  destruct (IH (defaultStep acc p) k Hh) as [Hh' Hg'].
  split; [exact Hh' | congruence].
Qed.

Lemma defaults_fill ps :
  forall acc p,
    In p ps -> is_undefined (default p) = false ->
    has_in (param_name p) (fold_left defaultStep ps acc) = true.
Proof.
  induction ps as [|p0 ps IH]; intros acc p Hin Hd; [destruct Hin|].
  cbn [fold_left]. destruct Hin as [->|Hin]; [|apply IH; assumption].
  assert (has_in (param_name p) (defaultStep acc p) = true) as H.
  { unfold defaultStep. rewrite Hd.
    destruct (has_in (param_name p) acc) eqn:Hp; cbn; [exact Hp|].
    apply has_in_own, JsFacts.obj_has_set_same. }
  unfold has_in in *. apply orb_true_iff in H as [H|H].
  - rewrite (proj1 (defaults_keep ps _ _ H)). reflexivity.
  - rewrite H. apply orb_true_r.
Qed.

(** Where an entry of the defaulted parameters comes from. *)
Lemma defaults_origin ps :
  forall acc k,
    obj_has k (fold_left defaultStep ps acc) = true ->
    obj_has k acc = true
    \/ (inherited k = false
        /\ exists p, In p ps /\ param_name p = k
                     /\ is_undefined (default p) = false
                     /\ obj_get k (fold_left defaultStep ps acc) = default p).
Proof.
  induction ps as [|p0 ps IH]; intros acc k Hk; cbn [fold_left] in *;
    [left; exact Hk|].
  destruct (IH _ _ Hk) as [Hstep | (Hinh & p & Hin & Hname & Hd & Hget)].
  - destruct (obj_has k acc) eqn:Hacc; [left; reflexivity|]. right.
    unfold defaultStep in Hstep.
    destruct (has_in (param_name p0) acc) eqn:Hp; cbn [negb andb] in Hstep;
      [congruence|].
    destruct (is_undefined (default p0)) eqn:Hd; cbn [negb] in Hstep;
      [congruence|].
    destruct (String.eqb k (param_name p0)) eqn:Hk0.
    + apply String.eqb_eq in Hk0. subst k.
      apply has_in_false in Hp as [_ Hinh]. split; [exact Hinh|].
      exists p0. split; [left; reflexivity|]. split; [reflexivity|].
      split; [exact Hd|].
      assert (defaultStep acc p0
              = obj_set (param_name p0) (default p0) acc) as ->.
      { unfold defaultStep. unfold has_in. rewrite Hacc, Hinh, Hd. reflexivity. }
      rewrite (proj2 (defaults_keep ps _ _ (JsFacts.obj_has_set_same _ _ _))).
      apply JsFacts.obj_get_set_same.
    + apply String.eqb_neq in Hk0.
      rewrite obj_has_set_other in Hstep by exact Hk0. congruence.
  - right. split; [exact Hinh|]. exists p. split; [right; exact Hin|]. auto.
Qed.

Lemma is_undefined_false v : v <> VUndefined <-> is_undefined v = false.
Proof. destruct v; cbn; split; congruence. Qed.

(** X6.  Applying the declared defaults never touches a parameter the
    caller supplied.  Afterwards every declared parameter that has a default
    is [in] the parameters; an entry that was added holds the default of a
    declared parameter of that name; and for a name every object inherits
    ([toString], [constructor], ...) no default is ever applied, because
    [in] holds for it already. *)
Theorem applyDefaults_keeps_and_fills (tool : ToolDefinition) (params : Params) :
  let resolvedParams := applyDefaults tool params in
  (forall k, obj_has k params = true ->
             obj_has k resolvedParams = true
             /\ obj_get k resolvedParams = obj_get k params)
  /\ (forall p, In p (tool_parameters tool) ->
                default p <> VUndefined ->
                has_in (param_name p) resolvedParams = true)
  /\ (forall k, obj_has k resolvedParams = true ->
                obj_has k params = false ->
                inherited k = false
                /\ exists p, In p (tool_parameters tool)
                             /\ param_name p = k
                             /\ default p <> VUndefined
                             /\ obj_get k resolvedParams = default p)
  /\ (forall k, inherited k = true ->
                obj_has k resolvedParams = obj_has k params).
Proof.
  intros resolvedParams. subst resolvedParams. rewrite applyDefaults_fold.
  split; [|split; [|split]].
  - intros k Hk. apply defaults_keep, Hk.
  - intros p Hin Hd. apply defaults_fill; [exact Hin|].
    apply is_undefined_false, Hd.
  - intros k Hk Hnot.
    destruct (defaults_origin _ _ _ Hk) as [Hown | (Hinh & p & Hin & Hn & Hd & Hg)];
      [congruence|].
    split; [exact Hinh|]. exists p. repeat split; auto.
    apply is_undefined_false, Hd.
  - intros k Hinh.
    destruct (obj_has k params) eqn:Hown.
    + apply defaults_keep, Hown.
    + destruct (obj_has k (fold_left defaultStep (tool_parameters tool) params))
        eqn:Hres; [|reflexivity].
      destruct (defaults_origin _ _ _ Hres) as [Hown' | (Hinh' & _)]; congruence.
Qed.

Lemma filter_nil_forall {A} (f : A -> bool) (l : list A) :
  List.filter f l = [] <-> forall x, In x l -> f x = false.
Proof.
  induction l as [|y l IH]; cbn.
  - split; [intros _ x [] | reflexivity].
  - destruct (f y) eqn:E.
    + split; [discriminate|]. intros H. specialize (H y (or_introl eq_refl)).
      congruence.
    + rewrite IH. split.
      * intros H x [->|Hx]; auto.
      * intros H x Hx. apply H. right. exact Hx.
Qed.

Lemma missingParams_nil tool params :
  missingParams tool params = []
  <-> forall p, In p (tool_parameters tool) -> required p = true ->
                has_in (param_name p) params = true.
Proof.
  unfold missingParams. split.
  - intros H p Hin Hreq. apply map_eq_nil in H.
    pose proof (proj1 (filter_nil_forall _ _) H p Hin) as Hp. cbn in Hp.
    rewrite Hreq in Hp. cbn in Hp. apply negb_false_iff in Hp. exact Hp.
  - intros H.
    assert (List.filter
              (fun p => required p && negb (has_in (param_name p) params))
              (tool_parameters tool) = []) as ->; [|reflexivity].
    apply filter_nil_forall. intros p Hin.
    destruct (required p) eqn:Hreq; [|reflexivity].
    rewrite (H p Hin Hreq). reflexivity.
Qed.

(** The names reported missing are the required ones that are not [in] the
    parameters. *)
Lemma missingParams_requiredNames tool params :
  missingParams tool params
  = List.filter (fun n => negb (has_in n params)) (requiredNames tool).
Proof.
  unfold missingParams, requiredNames.
  induction (tool_parameters tool) as [|p ps IH]; [reflexivity|].
  cbn [List.filter]. destruct (required p); cbn [andb map List.filter].
  - destruct (has_in (param_name p) params); cbn [negb map]; rewrite IH;
      reflexivity.
  - exact IH.
Qed.

(** X7.  [execute] invokes a capability only for a registered tool, and
    then with parameters that keep everything the caller supplied and in
    which every required parameter and every declared default is [in]: a
    required parameter was supplied by the caller, unless its name is one
    every object inherits ([toString], [constructor], ...), for which the
    check passes by itself.  Otherwise nothing is invoked. *)
Theorem capability_gets_complete_parameters
        (tools : list ToolDefinition) (name : string) (params : Params) (w : World) :
  let w' := snd (execute tools name params w) in
  toolCalls w' = toolCalls w
  \/ exists tool invoked,
      get tools name = Some tool
      /\ toolCalls w' = (toolCalls w ++ [(name, invoked)])%list
      /\ (forall p, In p (tool_parameters tool) -> required p = true ->
                    has_in (param_name p) invoked = true
                    /\ (inherited (param_name p) = false ->
                        obj_has (param_name p) params = true
                        /\ obj_get (param_name p) invoked
                           = obj_get (param_name p) params))
      /\ (forall p, In p (tool_parameters tool) -> default p <> VUndefined ->
                    has_in (param_name p) invoked = true)
      /\ (forall k, obj_has k params = true ->
                    obj_get k invoked = obj_get k params).
Proof.
  unfold execute. destruct (get tools name) as [tool|]; cbn zeta; [|left; reflexivity].
  destruct (missingParams tool params) as [|m ms] eqn:Hm;
    cbn [length Nat.ltb Nat.leb]; [|left; reflexivity].
  right. exists tool, (applyDefaults tool params).
  split; [reflexivity|]. split.
  - destruct (outcome (tool_execute tool (applyDefaults tool params))); reflexivity.
  - rewrite applyDefaults_fold. split; [|split].
    + intros p Hin Hreq.
      pose proof (proj1 (missingParams_nil tool params) Hm p Hin Hreq) as Hp.
      unfold has_in in Hp |- *. split.
      * apply orb_true_iff in Hp as [Hp|Hp]; [|rewrite Hp; apply orb_true_r].
        rewrite (proj1 (defaults_keep _ _ _ Hp)). reflexivity.
      * intros Hinh. rewrite Hinh, orb_false_r in Hp.
        split; [exact Hp | apply defaults_keep, Hp].
    + intros p Hin Hd. apply defaults_fill; [exact Hin|].
      apply is_undefined_false, Hd.
    + intros k Hk. apply defaults_keep, Hk.
Qed.

(** X8.  Whenever the capability is invoked, the [executionTimeMs] the
    result carries is the time the invocation took, also when the tool's own
    metadata had such an entry; the tool's other metadata entries are kept,
    and the clock has advanced by that time. *)
Theorem executionTime_is_measured
        (tools : list ToolDefinition) (name : string) (params : Params) (w : World)
        (tool : ToolDefinition) :
  get tools name = Some tool ->
  missingParams tool params = [] ->
  let run := tool_execute tool (applyDefaults tool params) in
  let r := fst (execute tools name params w) in
  let w' := snd (execute tools name params w) in
  now w' = now w + elapsedMs run
  /\ exists m,
      metadata r = Some m
      /\ obj_get "executionTimeMs" m = VNum (elapsedMs run)
      /\ forall result k,
          outcome run = Ok result -> k <> "executionTimeMs" ->
          obj_get k m
          = obj_get k (match metadata result with Some o => o | None => [] end).
Proof.
  intros Hget Hmiss run r w'. subst r w'. unfold execute.
  rewrite Hget, Hmiss. cbn [length Nat.ltb Nat.leb]. fold run.
  assert (Hd : now (tick (elapsedMs run)
                         (record_call name (applyDefaults tool params) w)) - now w
               = elapsedMs run) by (cbn; lia).
  rewrite Hd.
  destruct (outcome run) as [result|e]; cbn [fst snd metadata].
  - split; [reflexivity|]. eexists. split; [reflexivity|]. split.
    + apply JsFacts.obj_get_set_same.
    + intros result' k Hr Hk. injection Hr as <-.
      unfold withExecutionTime. apply obj_get_set_other, Hk.
  - split; [reflexivity|]. eexists. split; [reflexivity|]. split.
    + reflexivity.
    + intros result' k Hr. discriminate.
Qed.

(** X9.  The names a tool's OpenAI function schema lists as required are
    the ones [execute] insists on: the names it reports missing are the
    listed names that are not [in] the call's parameters, and the capability
    is invoked exactly when every listed name is [in] them. *)
Theorem schema_required_matches_validation
        (tool : ToolDefinition) (params : Params) (w : World) :
  (exists rest,
      toOpenAIFunctions [tool]
      = [VObj [("type", VStr "function");
               ("function",
                VObj [("name", VStr (tool_name tool));
                      ("description", VStr (tool_description tool));
                      ("parameters",
                       VObj [("type", VStr "object");
                             ("properties", rest);
                             ("required",
                              VArr (map VStr (requiredNames tool)))])])]])
  /\ missingParams tool params
     = List.filter (fun n => negb (has_in n params)) (requiredNames tool)
  /\ ((forall n, In n (requiredNames tool) -> has_in n params = true)
      <-> toolCalls (snd (execute [tool] (tool_name tool) params w))
          = (toolCalls w ++ [(tool_name tool, applyDefaults tool params)])%list).
Proof.
  split; [eexists; reflexivity|].
  split; [apply missingParams_requiredNames|].
  assert (Hall : (forall n, In n (requiredNames tool) -> has_in n params = true)
                 <-> missingParams tool params = []).
  { rewrite missingParams_nil. unfold requiredNames. split.
    - intros H p Hin Hreq. apply H. apply in_map.
      apply List.filter_In. auto.
    - intros H n Hn. apply in_map_iff in Hn as (p & <- & Hp).
      apply List.filter_In in Hp as [Hin Hreq]. auto. }
  rewrite Hall. unfold execute, get. cbn [find].
  rewrite String.eqb_refl.
  destruct (missingParams tool params) as [|m ms]; cbn [length Nat.ltb Nat.leb].
  - split; [intros _ | reflexivity].
    destruct (outcome (tool_execute tool (applyDefaults tool params))); reflexivity.
  - split; [discriminate|]. cbn [snd]. intros H.
    apply (f_equal (@length _)) in H. rewrite length_app in H. cbn in H. lia.
Qed.

Lemma executionTime_is_measured_witness :
  (get [Examples.noop] "noop" = Some Examples.noop
   /\ missingParams Examples.noop [] = [])
  /\ now (snd (execute [Examples.noop] "noop" [] Examples.epoch)) = 0 + 3
  /\ exists m,
      metadata (fst (execute [Examples.noop] "noop" [] Examples.epoch)) = Some m
      /\ obj_get "executionTimeMs" m = VNum 3.
Proof.
  split; [split; reflexivity|].
  destruct (executionTime_is_measured [Examples.noop] "noop" [] Examples.epoch
                                      Examples.noop eq_refl eq_refl)
    as (Hnow & m & Hm & Ht & _).
  split; [exact Hnow|]. exists m. split; [exact Hm | exact Ht].
Defined.

End InvocationFacts.

(** ** Subscribing and unsubscribing *)

Module SubscriptionFacts.
Import BaseAgent.

Lemma unsubscribe_cons handler h rest :
  unsubscribe handler (h :: rest)
  = if Nat.eqb h handler then rest else h :: unsubscribe handler rest.
Proof.
  unfold unsubscribe. cbn [indexOf].
  destruct (Nat.eqb h handler); [reflexivity|].
  destruct (indexOf handler rest); reflexivity.
Qed.

Lemma unsubscribe_absent handler hs :
  ~ In handler hs -> unsubscribe handler hs = hs.
Proof.
  induction hs as [|h rest IH]; intros Hnot; [reflexivity|].
  rewrite unsubscribe_cons.
  destruct (Nat.eqb_spec h handler) as [->|Hne].
  - exfalso. apply Hnot. left. reflexivity.
  - rewrite IH; [reflexivity|]. intros Hin. apply Hnot. right. exact Hin.
Qed.

Lemma unsubscribe_app_present handler hs more :
  In handler hs ->
  unsubscribe handler (hs ++ more) = (unsubscribe handler hs ++ more)%list.
Proof.
  induction hs as [|h rest IH]; intros Hin; [destruct Hin|].
  cbn [app]. rewrite !unsubscribe_cons.
  destruct (Nat.eqb_spec h handler) as [->|Hne]; [reflexivity|].
  destruct Hin as [->|Hin]; [congruence|].
  rewrite IH by exact Hin. reflexivity.
Qed.

Lemma unsubscribe_app_absent handler hs more :
  ~ In handler hs ->
  unsubscribe handler (hs ++ more) = (hs ++ unsubscribe handler more)%list.
Proof.
  induction hs as [|h rest IH]; intros Hnot; [reflexivity|].
  cbn [app]. rewrite unsubscribe_cons.
  destruct (Nat.eqb_spec h handler) as [->|Hne].
  - exfalso. apply Hnot. left. reflexivity.
  - rewrite IH; [reflexivity|]. intros Hin. apply Hnot. right. exact Hin.
Qed.

Lemma count_unsubscribe handler hs g :
  count_occ Nat.eq_dec (unsubscribe handler hs) g
  = if Nat.eqb g handler
    then Nat.pred (count_occ Nat.eq_dec hs g)
    else count_occ Nat.eq_dec hs g.
Proof.
  induction hs as [|h rest IH].
  - cbn. destruct (Nat.eqb g handler); reflexivity.
  - rewrite unsubscribe_cons.
    destruct (Nat.eqb_spec h handler) as [->|Hne].
    + cbn [count_occ]. destruct (Nat.eq_dec handler g) as [->|Hg].
      * rewrite Nat.eqb_refl. reflexivity.
      * destruct (Nat.eqb_spec g handler); [congruence | reflexivity].
    + cbn [count_occ]. rewrite IH.
      destruct (Nat.eq_dec h g) as [->|Hg]; [|reflexivity].
      destruct (Nat.eqb_spec g handler); [congruence | reflexivity].
Qed.

(** X10.  Calling the function [onEvent] returned undoes the subscription
    as far as the number of subscriptions of every handler goes.  When the
    handler was not subscribed before, the list of handlers is what it was,
    and calling the function again changes nothing.  When the handler was
    subscribed before, it is that older subscription which is removed: the
    handler is now the last to be notified. *)
Theorem unsubscribe_undoes_onEvent
        (handler : HandlerRef) (eventHandlers : list HandlerRef) :
  (forall g, count_occ Nat.eq_dec (unsubscribe handler (onEvent handler eventHandlers)) g
             = count_occ Nat.eq_dec eventHandlers g)
  /\ (~ In handler eventHandlers ->
      unsubscribe handler (onEvent handler eventHandlers) = eventHandlers
      /\ unsubscribe handler eventHandlers = eventHandlers)
  /\ (In handler eventHandlers ->
      unsubscribe handler (onEvent handler eventHandlers)
      = (unsubscribe handler eventHandlers ++ [handler])%list).
Proof.
  unfold onEvent. split; [|split].
  - intros g. rewrite count_unsubscribe, count_occ_app. cbn [count_occ].
    destruct (Nat.eqb_spec g handler) as [->|Hne].
    + destruct (Nat.eq_dec handler handler); [|congruence].
      rewrite Nat.add_1_r. reflexivity.
    + destruct (Nat.eq_dec handler g); [congruence|]. apply Nat.add_0_r.
  - intros Hnot. split; [|apply unsubscribe_absent, Hnot].
    rewrite unsubscribe_app_absent by exact Hnot.
    rewrite unsubscribe_cons, Nat.eqb_refl. apply app_nil_r.
  - apply unsubscribe_app_present.
Qed.

Lemma unsubscribe_undoes_onEvent_witness :
  (~ In 7%nat [3%nat; 5%nat]
   /\ unsubscribe 7%nat (onEvent 7%nat [3; 5]%nat) = [3; 5]%nat)
  /\ (In 3%nat [3%nat; 5%nat]
      /\ unsubscribe 3%nat (onEvent 3%nat [3; 5]%nat) = [5; 3]%nat).
Proof.
  assert (H7 : ~ In 7%nat [3%nat; 5%nat]) by (cbn; lia).
  assert (H3 : In 3%nat [3%nat; 5%nat]) by (left; reflexivity).
  split; split; [exact H7 | | exact H3 | ].
  - apply (proj1 (proj1 (proj2 (unsubscribe_undoes_onEvent 7%nat [3; 5]%nat)) H7)).
  - apply (proj2 (proj2 (unsubscribe_undoes_onEvent 3%nat [3; 5]%nat)) H3).
Defined.

End SubscriptionFacts.

(** ** The execution context across a step *)

Module ContextFacts.
Import Js ToolRegistry BaseAgent Examples.

(** X11.  A step changes the context only under its own keys: a failed
    step leaves the context as it was; a completed one writes
    [stepResults] under its id and [variables] under
    [step.<id>.result] and nothing else; no variable is ever removed. *)
Theorem executeStep_touches_only_its_keys
        (env : Env) (step : TaskStep) (ctx : ExecutionContext) (w : World) :
  let '(step', ctx', _) := executeStep env step ctx w in
  taskId ctx' = taskId ctx
  /\ (step_status step' = failed -> ctx' = ctx)
  /\ (forall id, id <> step_id step ->
                 stepResults ctx' !! id = stepResults ctx !! id)
  /\ (forall k, k <> "step." ++ step_id step ++ ".result" ->
                variables ctx' !! k = variables ctx !! k)
  /\ (forall k, is_Some (variables ctx !! k) -> is_Some (variables ctx' !! k)).
Proof.
  unfold executeStep. cbn [parameters toolName set_step step_id].
  destruct (ToolRegistry.execute _ _ _ _) as [r w1].
  destruct (success r).
  - cbn [taskId stepResults variables step_id set_step step_status].
    destruct (is_undefined (data r)); cbn [negb taskId stepResults variables].
    + repeat split; auto; try discriminate.
      intros id Hne. apply lookup_insert_ne. congruence.
    + repeat split; auto; try discriminate.
      * intros id Hne. apply lookup_insert_ne. congruence.
      * intros k Hne. apply lookup_insert_ne. congruence.
      * intros k Hk.
        destruct (decide (("step." ++ step_id step ++ ".result") = k)) as [<-|Hne].
        -- rewrite lookup_insert_eq. eauto.
        -- rewrite lookup_insert_ne by exact Hne. exact Hk.
  - cbn. repeat split; auto.
Qed.



End ContextFacts.

(** ** Aggregated results *)

Module AggregateFacts.
Import Js BaseAgent.

Lemma aggregateResults_fold steps :
  aggregateResults steps = VObj (fold_left aggregateStep steps []).
Proof. reflexivity. Qed.

Lemma aggregate_has steps :
  forall acc id,
    obj_has id (fold_left aggregateStep steps acc)
    = obj_has id acc
      || existsb (fun s => String.eqb (step_id s) id && contributes s) steps.
Proof.
  induction steps as [|s rest IH]; intros acc id; cbn [fold_left existsb].
  - rewrite orb_false_r. reflexivity.
  - rewrite IH. unfold aggregateStep.
    destruct (contributes s); cbn.
    + destruct (String.eqb_spec (step_id s) id) as [<-|Hne]; cbn.
      * rewrite JsFacts.obj_has_set_same, orb_true_r. reflexivity.
      * rewrite InvocationFacts.obj_has_set_other by congruence. reflexivity.
    + rewrite andb_false_r. reflexivity.
Qed.

Lemma aggregate_get steps :
  forall acc id,
    obj_get id (fold_left aggregateStep steps acc)
    = match find (fun s => String.eqb (step_id s) id && contributes s)
                 (rev steps) with
      | Some s => aggregateEntry s
      | None => obj_get id acc
      end.
Proof.
  induction steps as [|s rest IH]; intros acc id; cbn [fold_left rev].
  - reflexivity.
  - rewrite IH, RegistrationFacts.find_snoc.
    destruct (find _ (rev rest)); [reflexivity|].
    unfold aggregateStep.
    destruct (contributes s); cbn.
    + destruct (String.eqb_spec (step_id s) id) as [<-|Hne]; cbn.
      * apply JsFacts.obj_get_set_same.
      * apply InvocationFacts.obj_get_set_other. congruence.
    + rewrite andb_false_r. reflexivity.
Qed.

(** X13.  The aggregated result has an entry for a step id exactly when
    some step with that id is completed with a defined result; completed
    steps without a result, and failed or pending steps, do not appear.
    The entry holds the name and result of the last such step. *)
Theorem aggregateResults_entries (steps : list TaskStep) :
  exists fields,
    aggregateResults steps = VObj fields
    /\ (forall id,
           obj_has id fields = true
           <-> exists s, In s steps /\ step_id s = id
                         /\ step_status s = completed
                         /\ step_result s <> VUndefined)
    /\ (forall id,
           obj_get id fields
           = match find (fun s => String.eqb (step_id s) id && contributes s)
                        (rev steps) with
             | Some s => VObj [("name", VStr (step_name s));
                               ("result", step_result s)]
             | None => VUndefined
             end).
Proof.
  exists (fold_left aggregateStep steps []). split; [reflexivity|]. split.
  - intros id. rewrite aggregate_has. cbn [obj_has orb].
    rewrite existsb_exists. split.
    + intros (s & Hin & Hs). exists s.
      apply andb_true_iff in Hs as [Hid Hc].
      apply String.eqb_eq in Hid. unfold contributes in Hc.
      apply andb_true_iff in Hc as [Hst Hres].
      apply AgentFacts.TaskStatus_eqb_eq in Hst.
      repeat split; auto. intros E. rewrite E in Hres. discriminate.
    + intros (s & Hin & Hid & Hst & Hres). exists s. split; [exact Hin|].
      apply andb_true_iff. split; [apply String.eqb_eq, Hid|].
      unfold contributes. rewrite Hst. cbn.
      destruct (step_result s); try reflexivity. congruence.
  - intros id. rewrite aggregate_get. reflexivity.
Qed.

(** X14.  A task returned as [completed] carries the aggregate of its
    steps as its result; a task returned in any other status carries no
    result.  This holds whatever [plan] does. *)
Theorem task_result_is_aggregate
        (plan : Env -> Task -> World -> Outcome (list TaskStep) * World)
        (env : Env) (raw : value) (w : World) (t : Task) :
  fst (execute plan env raw w) = Ok t ->
  task_result t = (if TaskStatus_eqb (status t) completed
                   then aggregateResults (steps t) else VUndefined).
Proof.
  unfold execute.
  destruct (Schema.TaskInputSchema_parse raw) as [validatedInput|e];
    [|cbn; discriminate].
  destruct (generateId env "task" w) as [id w1].
  cbn [set_task task_id status steps task_result task_error input].
  match goal with |- context [plan env ?t0 ?w0] =>
    destruct (plan env t0 w0) as [[planned|e] w2] end.
  - cbn [set_task task_id status steps task_result task_error input].
    match goal with |- context [executeSteps env planned executing None ?c ?w0] =>
      pose proof (AgentFacts.executeSteps_exit env planned None c w0) as Hexit;
      destruct (executeSteps env planned executing None c w0) as [p w3] end.
    cbn [fst set_task task_id status steps task_result task_error input] in *.
    destruct Hexit as [Hs _ _ _ | ? ? ? ? _ _ _ _ _ Hs _]; rewrite Hs;
      cbn; intros H; injection H as <-; reflexivity.
  - cbn. intros H. injection H as <-. reflexivity.
Qed.

Lemma task_result_is_aggregate_witness :
  exists t,
    fst (AutomationAgent.execute Examples.emptyPlanEnv Examples.summarize
                                 Examples.epoch) = Ok t
    /\ task_result t = (if TaskStatus_eqb (status t) completed
                        then aggregateResults (steps t) else VUndefined).
Proof.
  eexists. split; [vm_compute; reflexivity|].
  apply (task_result_is_aggregate AutomationAgent.plan Examples.emptyPlanEnv
                                  Examples.summarize Examples.epoch).
  vm_compute. reflexivity.
Defined.

End AggregateFacts.

(** ** The event log and the tool calls of a task *)

Module TraceFacts.
Import Js ToolRegistry BaseAgent Examples.
Import AutomationAgent (stepIdAt).

Lemma emitEvent_record env event w : emitEvent env event w = record_event event w.
Proof.
  unfold emitEvent. generalize (record_event event w). intros w0.
  induction (eventHandlers env) as [|h hs IH]; cbn [fold_left]; [reflexivity|].
  destruct (h event); exact IH.
Qed.

(** What a call of the registry leaves in the world: without an invocation
    the result is a failure. *)
Lemma registry_world tools name params w :
  let r := fst (ToolRegistry.execute tools name params w) in
  let w' := snd (ToolRegistry.execute tools name params w) in
  events w' = events w
  /\ nextId w' = nextId w
  /\ ((toolCalls w' = toolCalls w /\ success r = false)
      \/ (has tools name = true
          /\ exists invoked, toolCalls w' = (toolCalls w ++ [(name, invoked)])%list)).
Proof.
  unfold ToolRegistry.execute.
  destruct (get tools name) as [tool|] eqn:Hget; cbn zeta; [|cbn; auto].
  destruct (missingParams tool params) as [|m ms];
    cbn [length Nat.ltb Nat.leb]; [|cbn; auto].
  assert (has tools name = true) as Hhas
      by (apply RegistrationFacts.has_get; congruence).
  destruct (outcome (tool_execute tool (applyDefaults tool params))); cbn;
    repeat split; right; split; eauto.
Qed.

(** What a step leaves in the world: a step whose tool was not invoked has
    failed. *)
Lemma executeStep_world env step ctx w :
  let '(step', ctx', w') := executeStep env step ctx w in
  toolName step' = toolName step
  /\ step_id step' = step_id step
  /\ taskId ctx' = taskId ctx
  /\ nextId w' = nextId w
  /\ (exists e1 e2,
         events w' = (events w ++ [e1; e2])%list
         /\ [event_type e1; event_type e2] = stepTrace step'
         /\ event_taskId e1 = taskId ctx /\ event_taskId e2 = taskId ctx)
  /\ ((toolCalls w' = toolCalls w /\ step_status step' = failed)
      \/ (has (tools env) (toolName step) = true
          /\ exists invoked,
              toolCalls w' = (toolCalls w ++ [(toolName step, invoked)])%list)).
Proof.
  unfold executeStep. cbn [parameters toolName set_step step_id].
  rewrite !emitEvent_record.
  match goal with |- context [ToolRegistry.execute ?t ?n ?p ?w0] =>
    pose proof (registry_world t n p w0) as Hw;
    destruct (ToolRegistry.execute t n p w0) as [r w1] end.
  cbn [fst snd] in Hw. destruct Hw as (Hev & Hid & Hcalls).
  cbn [events nextId toolCalls record_event] in Hev, Hid, Hcalls.
  destruct (success r) eqn:Hsucc; rewrite !emitEvent_record;
    cbn [toolName step_id taskId set_step step_status stepTrace
         events nextId toolCalls record_event].
  - assert (Hcalled : has (tools env) (toolName step) = true
                      /\ exists invoked,
                          toolCalls w1
                          = (toolCalls w ++ [(toolName step, invoked)])%list)
      by (destruct Hcalls as [[_ ?] | ?]; [discriminate | assumption]).
    destruct (negb (is_undefined (data r))); cbn [taskId];
      (repeat split; auto;
       [ eexists; eexists; rewrite Hev, <- app_assoc; cbn;
         repeat split; reflexivity ]).
  - repeat split; auto.
    + eexists; eexists; rewrite Hev, <- app_assoc; cbn; repeat split; reflexivity.
    + destruct Hcalls as [[? _] | ?]; auto.
Qed.

Lemma flat_map_pending (rest : list TaskStep) :
  Forall isPending rest -> flat_map stepTrace rest = [] /\ executed rest = [].
Proof.
  induction 1 as [|s rest Hs _ [IH1 IH2]]; [auto|].
  unfold isPending in Hs. cbn. unfold stepTrace at 1. rewrite Hs, IH1. cbn.
  auto.
Qed.

Lemma executed_cons_reached step steps :
  negb (TaskStatus_eqb (step_status step) pending) = true ->
  executed (step :: steps) = step :: executed steps.
Proof. intros H. unfold executed. cbn [List.filter]. rewrite H. reflexivity. Qed.

(** What the loop over pending steps leaves in the world. *)
Lemma executeSteps_world env todo :
  forall err ctx w,
    Forall isPending todo ->
    let '(p, w') := executeSteps env todo executing err ctx w in
    map step_id (p_steps p) = map step_id todo
    /\ nextId w' = nextId w
    /\ (exists new,
           events w' = (events w ++ new)%list
           /\ map event_type new = flat_map stepTrace (p_steps p)
           /\ Forall (fun e => event_taskId e = taskId ctx) new)
    /\ (exists calls,
           toolCalls w' = (toolCalls w ++ calls)%list
           /\ Forall (fun c => has (tools env) (fst c) = true) calls
           /\ callsMatch (map fst calls) (executed (p_steps p))).
Proof.
  induction todo as [|step rest IH]; intros err ctx w Hpend.
  - cbn. repeat split; auto.
    + exists []. rewrite app_nil_r. repeat split; auto.
    + exists []. rewrite app_nil_r. repeat split; auto. left. reflexivity.
  - inversion Hpend as [|? ? Hstep Hrest]; subst.
    cbn [executeSteps TaskStatus_eqb negb].
    pose proof (executeStep_world env step ctx w) as Hw.
    pose proof (StepFacts.executeStep_status env step ctx w) as Hst.
    destruct (executeStep env step ctx w) as [[step' ctx'] w'].
    destruct Hw as (Htool & Hid & Htask & Hnext & (e1 & e2 & Hev & Hty & Ht1 & Ht2)
                    & Hcalls).
    destruct Hst as [Hst _].
    assert (Hexec : negb (TaskStatus_eqb (step_status step') pending) = true)
      by (destruct Hst as [-> | ->]; reflexivity).
    destruct (TaskStatus_eqb (step_status step') failed) eqn:Hfailed.
    + destruct (flat_map_pending rest Hrest) as [Htr Hex].
      cbn [p_steps map flat_map]. rewrite (executed_cons_reached _ _ Hexec).
      rewrite Htr, Hex, app_nil_r.
      repeat split; auto; try congruence.
      * exists [e1; e2]. repeat split; auto.
      * destruct Hcalls as [[Hsame Hf] | (Hhas & invoked & Hcall)].
        -- exists []. rewrite app_nil_r. repeat split; auto.
           right. exists [], step'. repeat split; auto.
        -- exists [(toolName step, invoked)]. repeat split; auto.
           left. cbn. rewrite Htool. reflexivity.
    + specialize (IH err ctx' w' Hrest).
      destruct (executeSteps env rest executing err ctx' w') as [p w''].
      destruct IH as (Hids & Hnext' & (new & Hev' & Hty' & Hall')
                      & (calls & Hc' & Hfor' & Hmatch')).
      cbn [p_steps map flat_map]. rewrite (executed_cons_reached _ _ Hexec).
      repeat split; auto; try congruence.
      * exists ([e1; e2] ++ new)%list. rewrite Hev', Hev, <- !app_assoc.
        repeat split; auto.
        -- rewrite map_app, Hty', <- Hty. reflexivity.
        -- apply Forall_app. split; [auto|].
           eapply Forall_impl; [exact Hall'|]. cbn. intros e He. congruence.
      * destruct Hcalls as [[_ Hf] | (Hhas & invoked & Hcall)].
        -- rewrite Hf in Hfailed. discriminate.
        -- exists ((toolName step, invoked) :: calls).
           rewrite Hc', Hcall, <- app_assoc. repeat split; auto.
           destruct Hmatch' as [Hm | (front & f & Hreached & Hf & Hm)].
           ++ left. cbn. rewrite Hm, Htool. reflexivity.
           ++ right. exists (step' :: front), f. rewrite Hreached.
              repeat split; auto. cbn. rewrite Hm, Htool. reflexivity.
Qed.

Lemma convertSteps_world env planned :
  forall index w,
    let '(converted, w') := AutomationAgent.convertSteps env index planned w in
    events w' = events w
    /\ toolCalls w' = toolCalls w
    /\ map step_id converted = map (stepIdAt env) (seq (nextId w) (length planned)).
Proof.
  induction planned as [|ps rest IH]; intros index w; cbn; [auto|].
  specialize (IH (S index) (fresh_id w)).
  destruct (AutomationAgent.convertSteps env (S index) rest (fresh_id w))
    as [converted w'].
  destruct IH as (He & Hc & Hids). cbn in *. rewrite Hids. auto.
Qed.

Lemma createSimplePlan_world env task w :
  let '(simple, w') := AutomationAgent.createSimplePlan env task w in
  events w' = events w
  /\ toolCalls w' = toolCalls w
  /\ map step_id simple = map (stepIdAt env) (seq (nextId w) (length simple)).
Proof.
  unfold AutomationAgent.createSimplePlan.
  destruct (find _ _) as [matched|]; [destruct (String.eqb matched "")|];
    cbn; auto.
Qed.

(** What planning leaves in the world, and the ids it hands out. *)
Lemma plan_world env task w :
  exists planned w',
    AutomationAgent.plan env task w = (Ok planned, w')
    /\ Forall isPending planned
    /\ events w' = events w
    /\ toolCalls w' = toolCalls w
    /\ map step_id planned = map (stepIdAt env) (seq (nextId w) (length planned)).
Proof.
  destruct (AgentFacts.plan_returns env task w) as (planned & Hplan & Hpend & _).
  pose proof (createSimplePlan_world env task w) as Hsimple.
  unfold AutomationAgent.plan, ToolRegistry.getAll in *.
  destruct (length (tools env) =? 0)%nat.
  - destruct (AutomationAgent.createSimplePlan env task w) as [simple w'].
    cbn [fst] in Hplan. injection Hplan as ->.
    exists planned, w'. destruct Hsimple as (? & ? & ?). auto.
  - destruct (createAIPlan env task (tools env)) as [planningResult|e].
    + pose proof (convertSteps_world env (plan_steps planningResult) 0%nat w) as Hconv.
      pose proof (AgentFacts.convertSteps_pending env (plan_steps planningResult)
                                                  0%nat w) as [_ Hlen].
      unfold AutomationAgent.convertPlanToSteps in *.
      destruct (AutomationAgent.convertSteps env 0 (plan_steps planningResult) w)
        as [converted w'].
      cbn [fst] in Hplan, Hlen. injection Hplan as ->.
      exists planned, w'. destruct Hconv as (? & ? & Hids).
      rewrite Hlen. auto.
    + destruct (AutomationAgent.createSimplePlan env task w) as [simple w'].
      cbn [fst] in Hplan. injection Hplan as ->.
      exists planned, w'. destruct Hsimple as (? & ? & ?). auto.
Qed.

(** The task the automation agent returns for a valid input, with what it
    has left in the world. *)
Lemma automation_execute_world env raw w validatedInput :
  Schema.TaskInputSchema_parse raw = Ok validatedInput ->
  exists t w',
    AutomationAgent.execute env raw w = (Ok t, w')
    /\ task_id t = "task_" ++ nanoid env (nextId w)
    /\ map step_id (steps t)
       = map (stepIdAt env) (seq (S (nextId w)) (length (steps t)))
    /\ (exists new,
           events w' = (events w ++ new)%list
           /\ map event_type new
              = ([task_created; task_started; task_planning; task_planned]
                   ++ flat_map stepTrace (steps t)
                   ++ [if TaskStatus_eqb (status t) completed
                       then task_completed else task_failed])%list
           /\ Forall (fun e => event_taskId e = task_id t) new)
    /\ (exists calls,
           toolCalls w' = (toolCalls w ++ calls)%list
           /\ Forall (fun c => has (tools env) (fst c) = true) calls
           /\ callsMatch (map fst calls) (executed (steps t))).
Proof.
  intros Hparse. unfold AutomationAgent.execute, execute. rewrite Hparse.
  unfold generateId. rewrite !emitEvent_record.
  cbn [set_task task_id status steps task_result task_error input taskEvent].
  match goal with |- context [AutomationAgent.plan env ?t0 ?w0] =>
    destruct (plan_world env t0 w0)
      as (planned & w2 & Hplan & Hpend & Hev2 & Hcalls2 & Hids2);
    rewrite Hplan end.
  cbn [events toolCalls nextId record_event fresh_id] in Hev2, Hcalls2, Hids2.
  rewrite !emitEvent_record.
  cbn [set_task task_id status steps task_result task_error input taskEvent].
  match goal with |- context [executeSteps env planned executing None ?c ?w0] =>
    pose proof (executeSteps_world env planned None c w0 Hpend) as Hloop;
    pose proof (AgentFacts.executeSteps_exit env planned None c w0) as Hexit;
    destruct (executeSteps env planned executing None c w0) as [p w3] end.
  cbn [fst] in Hexit.
  destruct Hloop as (Hids & _ & (new & Hev3 & Hty3 & Hall3)
                     & (calls & Hc3 & Hfor3 & Hmatch3)).
  cbn [events toolCalls nextId record_event taskId] in Hev3, Hc3, Hall3.
  assert (Hsteps : map step_id (p_steps p)
                   = map (stepIdAt env) (seq (S (nextId w)) (length (p_steps p)))).
  { rewrite Hids, Hids2.
    replace (length (p_steps p)) with (length planned); [reflexivity|].
    rewrite <- (length_map step_id planned), <- Hids, length_map. reflexivity. }
  destruct (TaskStatus_eqb (p_status p) executing) eqn:Hst;
    cbn [set_task task_id status steps task_result task_error input taskEvent
         TaskStatus_eqb];
    rewrite emitEvent_record; eexists; eexists; (split; [reflexivity|]);
    cbn [task_id steps status events toolCalls record_event];
    (split; [reflexivity|]); (split; [exact Hsteps|]); split.
  - eexists. rewrite Hev3, Hev2, <- !app_assoc. split; [reflexivity|].
    split.
    + cbn. rewrite map_app, Hty3. reflexivity.
    + repeat (constructor; [reflexivity|]).
      apply Forall_app. split; [exact Hall3|]. repeat constructor.
  - exists calls. rewrite Hc3, Hcalls2. auto.
  - eexists. rewrite Hev3, Hev2, <- !app_assoc. split; [reflexivity|].
    split.
    + cbn. rewrite map_app, Hty3.
      destruct Hexit as [Hs _ _ _ | ? ? ? ? _ _ _ _ _ Hs _];
        rewrite Hs in Hst |- *; [discriminate | reflexivity].
    + repeat (constructor; [reflexivity|]).
      apply Forall_app. split; [exact Hall3|]. repeat constructor.
  - exists calls. rewrite Hc3, Hcalls2. auto.
Qed.

(** X15.  The events of a task, in order: [task:created], [task:started],
    [task:planning], [task:planned]; then for every step the loop reached
    [step:started] followed by [step:completed] or [step:failed], according
    to the status the step ended in, and nothing for a step left pending;
    last [task:completed] or [task:failed], according to the task's status.
    Every one of them carries the task's id. *)
Theorem execute_event_log (env : Env) (raw : value) (w : World) (t : Task) :
  fst (AutomationAgent.execute env raw w) = Ok t ->
  exists new,
    events (snd (AutomationAgent.execute env raw w)) = (events w ++ new)%list
    /\ map event_type new
       = ([task_created; task_started; task_planning; task_planned]
            ++ flat_map stepTrace (steps t)
            ++ [if TaskStatus_eqb (status t) completed
                then task_completed else task_failed])%list
    /\ Forall (fun e => event_taskId e = task_id t) new.
Proof.
  intros Hok.
  destruct (AgentFacts.execute_ok_parses _ _ _ _ _ Hok) as [validatedInput Hparse].
  destruct (automation_execute_world env raw w validatedInput Hparse)
    as (t' & w' & Hex & _ & _ & Hlog & _).
  rewrite Hex in Hok |- *. cbn [fst snd] in *. injection Hok as ->. exact Hlog.
Qed.

(** X16.  The tools a task invokes are exactly those of the steps the loop
    reached, one invocation per step and in the order of the steps; only the
    step that failed may have failed without its tool being invoked.  Every
    tool invoked is registered; planning, the events and the steps left
    pending cause no invocation. *)
Theorem execute_invokes_only_registered_tools
        (env : Env) (raw : value) (w : World) (t : Task) :
  fst (AutomationAgent.execute env raw w) = Ok t ->
  exists calls,
    toolCalls (snd (AutomationAgent.execute env raw w)) = (toolCalls w ++ calls)%list
    /\ Forall (fun c => has (tools env) (fst c) = true) calls
    /\ callsMatch (map fst calls) (executed (steps t)).
Proof.
  intros Hok.
  destruct (AgentFacts.execute_ok_parses _ _ _ _ _ Hok) as [validatedInput Hparse].
  destruct (automation_execute_world env raw w validatedInput Hparse)
    as (t' & w' & Hex & _ & _ & _ & Hcalls).
  rewrite Hex in Hok |- *. cbn [fst snd] in *. injection Hok as ->. exact Hcalls.
Qed.

Lemma stepIdAt_inj env :
  (forall a b, nanoid env a = nanoid env b -> a = b) ->
  forall a b, stepIdAt env a = stepIdAt env b -> a = b.
Proof.
  intros Hinj a b H. unfold stepIdAt in H. cbn in H.
  injection H as H. auto.
Qed.

(** X17.  The task's id is valid as a task id and every step's id as a step
    id; and when the id source never repeats itself, no two steps of the
    task share an id. *)
Theorem execute_ids (env : Env) (raw : value) (w : World) (t : Task) :
  fst (AutomationAgent.execute env raw w) = Ok t ->
  Id.isValidId (task_id t) (Some Id.PTask) = true
  /\ Forall (fun s => Id.isValidId (step_id s) (Some Id.PStep) = true) (steps t)
  /\ ((forall a b, nanoid env a = nanoid env b -> a = b) ->
      NoDup (map step_id (steps t))).
Proof.
  intros Hok.
  destruct (AgentFacts.execute_ok_parses _ _ _ _ _ Hok) as [validatedInput Hparse].
  destruct (automation_execute_world env raw w validatedInput Hparse)
    as (t' & w' & Hex & Htid & Hsids & _ & _).
  rewrite Hex in Hok. cbn [fst] in Hok. injection Hok as ->.
  split; [|split].
  - rewrite Htid. apply (IdFacts.startsWith_append "task_").
  - apply Forall_forall. intros s Hs.
    assert (In (step_id s) (map step_id (steps t))) as Hin.
    { apply in_map. apply list_elem_of_In. exact Hs. }
    rewrite Hsids in Hin. apply in_map_iff in Hin as (i & <- & _).
    apply (IdFacts.startsWith_append "step_").
  - intros Hinj. rewrite Hsids.
    apply NoDup_fmap_2; [|apply NoDup_seq].
    intros a b. apply stepIdAt_inj, Hinj.
Qed.

Lemma execute_event_log_witness :
  exists t,
    fst (AutomationAgent.execute noopEnv runNoop epoch) = Ok t
    /\ exists new,
        events (snd (AutomationAgent.execute noopEnv runNoop epoch))
        = (events epoch ++ new)%list
        /\ map event_type new
           = ([task_created; task_started; task_planning; task_planned]
                ++ flat_map stepTrace (steps t)
                ++ [if TaskStatus_eqb (status t) completed
                    then task_completed else task_failed])%list
        /\ Forall (fun e => event_taskId e = task_id t) new.
Proof.
  eexists. split; [vm_compute; reflexivity|].
  apply (execute_event_log noopEnv runNoop epoch).
  vm_compute. reflexivity.
Defined.

Lemma execute_invokes_only_registered_tools_witness :
  exists t,
    fst (AutomationAgent.execute noopEnv runNoop epoch) = Ok t
    /\ exists calls,
        toolCalls (snd (AutomationAgent.execute noopEnv runNoop epoch))
        = (toolCalls epoch ++ calls)%list
        /\ Forall (fun c => has (tools noopEnv) (fst c) = true) calls
        /\ callsMatch (map fst calls) (executed (steps t)).
Proof.
  eexists. split; [vm_compute; reflexivity|].
  apply (execute_invokes_only_registered_tools noopEnv runNoop epoch).
  vm_compute. reflexivity.
Defined.

Lemma execute_ids_witness :
  exists t,
    fst (AutomationAgent.execute noopEnv runNoop epoch) = Ok t
    /\ Id.isValidId (task_id t) (Some Id.PTask) = true
    /\ Forall (fun s => Id.isValidId (step_id s) (Some Id.PStep) = true) (steps t)
    /\ ((forall a b, nanoid noopEnv a = nanoid noopEnv b -> a = b) ->
        NoDup (map step_id (steps t))).
Proof.
  eexists. split; [vm_compute; reflexivity|].
  apply (execute_ids noopEnv runNoop epoch).
  vm_compute. reflexivity.
Defined.

End TraceFacts.

(** ** Planning *)

Module PlanFacts.
Import Js ToolRegistry BaseAgent AutomationAgent.

Lemma chars_substring s :
  forall m n c, In c (chars (substring m n s)) -> In c (chars s).
Proof.
  induction s as [|d s IH]; intros m n c Hin.
  - destruct m, n; cbn in Hin; destruct Hin.
  - destruct m as [|m].
    + destruct n as [|n]; cbn in Hin; [destruct Hin|].
      destruct Hin as [->|Hin]; [left; reflexivity|].
      right. apply (IH 0%nat n c Hin).
    + cbn in Hin. right. apply (IH m n c Hin).
Qed.

Lemma includes_chars s p c :
  includes s p = true -> In c (chars p) -> In c (chars s).
Proof.
  unfold includes. destruct (String.index 0 p s) as [m|] eqn:Hi; [|discriminate].
  intros _ Hin. apply String.index_correct1 in Hi.
  rewrite <- Hi in Hin. apply (chars_substring s m _ c Hin).
Qed.

Lemma lower_not_upper c : isUpper (lower c) = false.
Proof.
  destruct c as [[] [] [] [] [] [] [] []]; vm_compute; reflexivity.
Qed.

Lemma toLowerCase_no_upper s c :
  In c (chars (toLowerCase s)) -> isUpper c = false.
Proof.
  induction s as [|d s IH]; cbn; [tauto|].
  intros [<-|Hin]; [apply lower_not_upper | exact (IH Hin)].
Qed.

Lemma underscoresToSpaces_keeps_upper s c :
  isUpper c = true -> In c (chars s) -> In c (chars (underscoresToSpaces s)).
Proof.
  intros Hup. induction s as [|d s IH]; cbn; [tauto|].
  intros [->|Hin]; [|right; exact (IH Hin)].
  left. destruct (Ascii.eqb_spec c "_"%char) as [->|]; [|reflexivity].
  vm_compute in Hup. discriminate.
Qed.

(** X18.  The fallback plan is a single pending step.  It names the first
    registered tool whose name, underscores read as spaces, occurs in the
    lower-cased description, calls the step [Execute <tool>] and passes it
    the task's context.  When no registered name occurs, or when that first
    name is the empty string (which occurs in every description and which
    [if (matchedTool)] takes for no match), it names [analyze_text] and
    passes the description as [text].  Since only the description is
    lower-cased, the tool it names never has a capital letter in its
    name. *)
Theorem createSimplePlan_choice (env : Env) (task : Task) (w : World) :
  exists step,
    fst (createSimplePlan env task w) = [step]
    /\ step_status step = pending
    /\ ((has (tools env) (toolName step) = true
         /\ toolName step <> ""
         /\ mentions task (toolName step) = true
         /\ find (mentions task) (getNames (tools env)) = Some (toolName step)
         /\ step_name step = "Execute " ++ toolName step
         /\ parameters step
            = match context (input task) with Some c => c | None => [] end)
        \/ (toolName step = "analyze_text"
            /\ ((forall name, In name (getNames (tools env)) ->
                              mentions task name = false)
                \/ find (mentions task) (getNames (tools env)) = Some "")
            /\ step_name step = "Analyze Input"
            /\ parameters step = [("text", VStr (description (input task)))]))
    /\ (forall c, In c (chars (toolName step)) -> isUpper c = false).
Proof.
  assert (Hanalyze : forall c, In c (chars "analyze_text") -> isUpper c = false).
  { intros c Hc. cbn in Hc.
    repeat (destruct Hc as [<-|Hc]; [vm_compute; reflexivity|]).
    destruct Hc. }
  unfold createSimplePlan. fold (mentions task).
  destruct (find (mentions task) (getNames (tools env))) as [matched|] eqn:Hfind.
  - destruct (String.eqb matched "") eqn:Hempty.
    + apply String.eqb_eq in Hempty. subst matched.
      cbn. eexists. split; [reflexivity|]. split; [reflexivity|]. cbn.
      split; [|exact Hanalyze]. right. repeat split. right. reflexivity.
    + apply String.eqb_neq in Hempty.
      cbn. eexists. split; [reflexivity|]. split; [reflexivity|].
      apply find_some in Hfind as Hsome. destruct Hsome as [Hin Hm]. cbn. split.
      * left. repeat split; auto.
        apply RegistrationFacts.has_In. exact Hin.
      * intros c Hc. destruct (isUpper c) eqn:Hup; [|reflexivity].
        exfalso. unfold mentions in Hm.
        pose proof (underscoresToSpaces_keeps_upper matched c Hup Hc) as Hc'.
        pose proof (includes_chars _ _ c Hm Hc') as Hc''.
        apply toLowerCase_no_upper in Hc''. congruence.
  - cbn. eexists. split; [reflexivity|]. split; [reflexivity|]. cbn.
    split; [|exact Hanalyze]. right. repeat split.
    left. intros name Hin. apply (find_none _ _ Hfind name Hin).
Qed.

Lemma convertSteps_lookup env planned :
  forall index w i ps,
    planned !! i = Some ps ->
    exists s,
      fst (convertSteps env index planned w) !! i = Some s
      /\ step_id s = stepIdAt env (nextId w + i)
      /\ step_name s = (if String.eqb (plan_name ps) ""
                        then "Step " ++ pretty (index + i + 1)%nat
                        else plan_name ps)
      /\ step_description s = plan_description ps
      /\ toolName s = plan_toolName ps
      /\ parameters s = plan_parameters ps
      /\ step_status s = pending.
Proof.
  induction planned as [|p0 rest IH]; intros index w i ps Hi; [discriminate|].
  cbn [convertSteps]. unfold generateId.
  specialize (IH (S index) (fresh_id w)).
  destruct (convertSteps env (S index) rest (fresh_id w)) as [converted w'].
  cbn [fst] in *. destruct i as [|i]; cbn in Hi.
  - injection Hi as ->. eexists. split; [reflexivity|].
    cbn. rewrite !Nat.add_0_r. repeat split; reflexivity.
  - destruct (IH i ps Hi) as (s & Hs & Hid & Hname & Hrest).
    exists s. split; [exact Hs|]. cbn [nextId fresh_id] in Hid.
    replace (nextId w + S i)%nat with (S (nextId w) + i)%nat by lia.
    replace (index + S i + 1)%nat with (S index + i + 1)%nat by lia.
    auto.
Qed.

(** X19.  [convertPlanToSteps] keeps the planner's steps in their order,
    each with its description, tool and parameters and in status pending;
    a step the planner left without a name is called [Step n], by its
    position counted from 1; the ids are handed out in order. *)
Theorem convertPlanToSteps_keeps_plan
        (env : Env) (plan : PlanningResult) (w : World) (i : nat) (ps : PlannedStep) :
  plan_steps plan !! i = Some ps ->
  length (fst (convertPlanToSteps env plan w)) = length (plan_steps plan)
  /\ exists s,
      fst (convertPlanToSteps env plan w) !! i = Some s
      /\ step_id s = stepIdAt env (nextId w + i)
      /\ step_name s = (if String.eqb (plan_name ps) ""
                        then "Step " ++ pretty (i + 1)%nat
                        else plan_name ps)
      /\ step_description s = plan_description ps
      /\ toolName s = plan_toolName ps
      /\ parameters s = plan_parameters ps
      /\ step_status s = pending.
Proof.
  intros Hi. unfold convertPlanToSteps. split.
  - apply AgentFacts.convertSteps_pending.
  - apply (convertSteps_lookup env (plan_steps plan) 0%nat w i ps Hi).
Qed.

Lemma convertPlanToSteps_keeps_plan_witness :
  let unnamed := {| plan_name := ""; plan_description := "second";
                    plan_toolName := "noop"; plan_parameters := [] |} in
  let plan := {| plan_steps := [{| plan_name := "First"; plan_description := "first";
                                   plan_toolName := "noop"; plan_parameters := [] |};
                                unnamed];
                 reasoning := "" |} in
  plan_steps plan !! 1%nat = Some unnamed
  /\ exists s,
      fst (convertPlanToSteps Examples.noopEnv plan Examples.epoch) !! 1%nat = Some s
      /\ step_name s = "Step 2"
      /\ toolName s = "noop".
Proof.
  intros unnamed plan. split; [reflexivity|].
  destruct (convertPlanToSteps_keeps_plan Examples.noopEnv plan Examples.epoch
                                          1%nat unnamed eq_refl)
    as (_ & s & Hs & _ & Hname & _ & Htool & _).
  exists s. split; [exact Hs|]. split; [exact Hname | exact Htool].
Defined.

End PlanFacts.

(** ** More on the retry wrapper *)

Module RetryBounds.
Import Js Retry.

Section WithResult.
Context {T : Type}.
Implicit Types (operation : Operation T).

(** One attempt of the run. *)
Lemma pRetry_attempt_step operation a budget reported :
  pRetry_attempt (guarded operation) a budget reported
  = match operation a with
    | Ok v => {| settled := Ok v; invocations := a; failedAttempts := reported |}
    | Throw e =>
        if isRetryableError e
        then match budget with
             | O => {| settled := Throw e; invocations := a;
                       failedAttempts := (reported ++ [a])%list |}
             | S budget' =>
                 pRetry_attempt (guarded operation) (S a) budget'
                                (reported ++ [a])%list
             end
        else {| settled := Throw (ThrowError PlainError
                                             (messageOr "Non-retryable error" e));
                invocations := a; failedAttempts := reported |}
    end.
Proof.
  destruct budget; cbn [pRetry_attempt]; unfold guarded at 1;
    destruct (operation a) as [v|e]; try reflexivity;
    destruct (isRetryableError e) eqn:Hr; cbn [negb]; try reflexivity;
    destruct (RetryFacts.retryable_is_plain e Hr) as (cls & m & -> & Hcls);
    destruct cls; try congruence; reflexivity.
Qed.

(** How a run that starts at attempt [a] with [budget] retries left ends. *)
Lemma pRetry_attempt_ends operation budget :
  forall a reported,
    let r := pRetry_attempt (guarded operation) a budget reported in
    (a <= invocations r <= a + budget)%nat
    /\ (forall i, (a <= i < invocations r)%nat -> failsRetryably operation i)
    /\ match operation (invocations r) with
       | Ok v => settled r = Ok v
       | Throw e =>
           if isRetryableError e
           then settled r = Throw e /\ invocations r = (a + budget)%nat
           else settled r
                = Throw (ThrowError PlainError
                                    (messageOr "Non-retryable error" e))
       end.
Proof.
  induction budget as [|budget IH]; intros a reported; cbn zeta;
    rewrite pRetry_attempt_step;
    destruct (operation a) as [v|e] eqn:Ha.
  - cbn. rewrite Ha. repeat split; intros; lia.
  - destruct (isRetryableError e) eqn:Hr; cbn; rewrite Ha, Hr;
      repeat split; intros; lia.
  - cbn. rewrite Ha. repeat split; intros; lia.
  - destruct (isRetryableError e) eqn:Hr.
    + specialize (IH (S a) (reported ++ [a])%list). cbn zeta in IH.
      destruct IH as (Hb & Hp & Hl).
      split; [lia|]. split.
      * intros i Hi. destruct (Nat.eq_dec i a) as [->|Hne].
        -- exists e. split; [exact Ha | exact Hr].
        -- apply Hp. lia.
      * destruct (operation (invocations _)) as [v|e']; [exact Hl|].
        destruct (isRetryableError e'); [|exact Hl].
        destruct Hl as [Hs Hi]. split; [exact Hs | lia].
    + cbn. rewrite Ha, Hr. repeat split; intros; lia.
Qed.

End WithResult.

(** X20.  Whatever the operation does, [withRetry] invokes it at least once
    and at most [retries + 1] times; every invocation but the last failed
    with a retryable error; and the run settles as the last invocation
    did: with its value, or with its error when that was retryable and the
    budget is spent, or, when it was not retryable, with a plain Error that
    carries its message ([Non-retryable error] for a thrown non-Error). *)
Theorem withRetry_settles_like_last_invocation
        {T : Type} (operation : Operation T) (options : RetryOptions) :
  let r := withRetry operation options in
  (1 <= invocations r <= retries options + 1)%nat
  /\ (forall i, (1 <= i < invocations r)%nat -> failsRetryably operation i)
  /\ match operation (invocations r) with
     | Ok v => settled r = Ok v
     | Throw e =>
         if isRetryableError e
         then settled r = Throw e
              /\ invocations r = (retries options + 1)%nat
         else settled r
              = Throw (ThrowError PlainError (messageOr "Non-retryable error" e))
     end.
Proof.
  cbn zeta. rewrite RetryFacts.withRetry_unfold.
  pose proof (pRetry_attempt_ends operation (retries options) 1%nat []) as H.
  cbn zeta in H. destruct H as (Hb & Hp & Hl).
  split; [lia|]. split; [exact Hp|].
  destruct (operation (invocations _)) as [v|e]; [exact Hl|].
  destruct (isRetryableError e); [|exact Hl].
  destruct Hl as [Hs Hi]. split; [exact Hs | lia].
Qed.

End RetryBounds.

(** ** More on the circuit breaker *)

Module BreakerInvariants.
Import CircuitBreaker.

Section WithResult.
Context {T : Type}.
Implicit Types (cb : CircuitBreaker) (c : Call T) (calls : list (Call T)).

Lemma execute_settled cb c :
  settledBreaker cb ->
  settledBreaker (breaker (execute cb c))
  /\ options (breaker (execute cb c)) = options cb.
Proof.
  intros [Hhalf Hopen]. unfold execute, shouldAttemptReset.
  destruct (state cb) eqn:Hst; try congruence.
  - destruct (operation c); cbn; unfold settledBreaker; cbn.
    + repeat split; try discriminate.
    + rewrite Hst.
      destruct (Nat.leb_spec (failureThreshold (options cb)) (S (failures cb)));
        repeat split; try discriminate; eauto.
  - destruct (Hopen eq_refl) as [Hthr [t Ht]]. rewrite Ht.
    destruct (resetTimeoutMs (options cb) <=? enteredAt c - t); cbn.
    + destruct (operation c); cbn; unfold settledBreaker; cbn.
      * repeat split; try discriminate.
      * destruct (Nat.leb_spec (failureThreshold (options cb)) (S (failures cb)));
          [|lia].
        repeat split; try discriminate; eauto.
    + unfold settledBreaker. rewrite Hst, Ht. repeat split; eauto; discriminate.
Qed.

Lemma executeAll_settled calls :
  forall cb,
    settledBreaker cb ->
    settledBreaker (executeAll cb calls)
    /\ options (executeAll cb calls) = options cb.
Proof.
  induction calls as [|c rest IH]; intros cb Hinv; [auto|].
  unfold executeAll in *. cbn [fold_left].
  destruct (execute_settled cb c Hinv) as [Hinv' Hopts].
  destruct (IH _ Hinv') as [H1 H2]. split; [exact H1 | congruence].
Qed.

Lemma new_settled opts : settledBreaker (new opts).
Proof. unfold settledBreaker, new. cbn. split; discriminate. Qed.

Lemma executeAll_rejected calls :
  forall cb t,
    state cb = open -> lastFailureTime cb = Some t ->
    Forall (fun c => enteredAt c - t < resetTimeoutMs (options cb)) calls ->
    executeAll cb calls = cb
    /\ Forall (fun c => attemptedIn (execute cb c) = None) calls.
Proof.
  induction calls as [|c rest IH]; intros cb t Hst Ht Hall; [auto|].
  inversion Hall as [|? ? Hc Hrest]; subst.
  pose proof (BreakerFacts.execute_open_rejects cb c t Hst Ht Hc) as Hrej.
  unfold executeAll in *. cbn [fold_left]. rewrite Hrej. cbn [breaker].
  destruct (IH cb t Hst Ht Hrest) as [H1 H2].
  split; [exact H1|]. constructor; [rewrite Hrej; reflexivity | exact H2].
Qed.

Lemma executeAll_below calls :
  forall cb,
    state cb = closed ->
    staysBelow (failureThreshold (options cb)) (failures cb) calls = true ->
    state (executeAll cb calls) = closed
    /\ failures (executeAll cb calls) = trailingFailures (failures cb) calls.
Proof.
  induction calls as [|c rest IH]; intros cb Hst Hbelow; [auto|].
  cbn [staysBelow trailingFailures] in *.
  apply andb_true_iff in Hbelow as [Hlt Hrest].
  apply Nat.ltb_lt in Hlt.
  unfold executeAll in *. cbn [fold_left].
  assert (Hstep : state (breaker (execute cb c)) = closed
                  /\ failures (breaker (execute cb c))
                     = (if failing c then S (failures cb) else 0%nat)
                  /\ options (breaker (execute cb c)) = options cb).
  { unfold execute, failing in *. rewrite Hst.
    destruct (operation c); cbn; [auto|].
    destruct (Nat.leb_spec (failureThreshold (options cb)) (S (failures cb)));
      [lia | auto]. }
  destruct Hstep as (Hst' & Hf' & Ho').
  specialize (IH (breaker (execute cb c)) Hst').
  rewrite Ho', Hf' in IH. apply IH, Hrest.
Qed.

End WithResult.

(** X21.  Between calls a breaker is never half-open, whatever calls it has
    served since it was made; and when it is open, its failure count has
    reached the threshold and the time of the last failure is recorded. *)
Theorem breaker_is_settled_between_calls
        {T : Type} (opts : CircuitBreakerOptions) (calls : list (Call T)) :
  let cb := executeAll (new opts) calls in
  state cb <> half_open
  /\ (state cb = open ->
      (failureThreshold opts <= failures cb)%nat
      /\ is_Some (lastFailureTime cb))
  /\ options cb = opts.
Proof.
  destruct (executeAll_settled calls (new opts) (new_settled opts))
    as [[H1 H2] H3].
  cbn zeta. cbn [options new] in H3. rewrite H3 in H2. auto.
Qed.

(** X22.  A probe that fails re-opens the breaker and restarts the
    cool-down: on an open breaker whose time-out has elapsed the operation
    is invoked, its own error is what the caller gets, and afterwards the
    breaker is open again with the time of this failure as the last one. *)
Theorem failed_probe_reopens
        {T : Type} (opts : CircuitBreakerOptions) (calls : list (Call T))
        (probe : Call T) (t : Z) (e : Thrown) :
  let cb := executeAll (new opts) calls in
  state cb = open ->
  lastFailureTime cb = Some t ->
  resetTimeoutMs opts <= enteredAt probe - t ->
  operation probe = Throw e ->
  result (execute cb probe) = Throw e
  /\ attemptedIn (execute cb probe) = Some half_open
  /\ state (breaker (execute cb probe)) = open
  /\ lastFailureTime (breaker (execute cb probe)) = Some (settledAt probe)
  /\ failures (breaker (execute cb probe)) = S (failures cb).
Proof.
  intros cb Hst Ht Hge Hop.
  destruct (executeAll_settled calls (new opts) (new_settled opts))
    as [[_ Hopen] Hopts].
  fold cb in Hopen, Hopts. cbn [options new] in Hopts.
  destruct (Hopen Hst) as [Hthr _]. rewrite Hopts in Hthr.
  unfold execute, shouldAttemptReset. rewrite Hst, Ht, Hopts.
  destruct (Z.leb_spec (resetTimeoutMs opts) (enteredAt probe - t)); [|lia].
  rewrite Hop. cbn. rewrite Hopts.
  destruct (Nat.leb_spec (failureThreshold opts) (S (failures cb))); [|lia].
  auto.
Qed.

Lemma failed_probe_reopens_witness :
  let calls := [Examples.failingAt 0 10; Examples.failingAt 20 30] in
  let probe := Examples.failingAt 2000 2010 in
  let cb := executeAll (new Examples.twoFailures) calls in
  (state cb = open /\ lastFailureTime cb = Some 30)
  /\ state (breaker (execute cb probe)) = open
  /\ lastFailureTime (breaker (execute cb probe)) = Some 2010.
Proof.
  intros calls probe cb. split; [split; reflexivity|].
  destruct (failed_probe_reopens Examples.twoFailures calls probe 30
                                 (ThrowError PlainError "ECONNRESET"))
    as (_ & _ & H1 & H2 & _);
    [reflexivity | reflexivity | cbn; lia | reflexivity |].
  split; [exact H1 | exact H2].
Defined.

(** X23.  While the time-out has not elapsed an open breaker rejects every
    call, however many there are, without invoking anything, and stays
    exactly as it was: rejected calls neither extend nor shorten the
    cool-down. *)
Theorem open_breaker_rejects_all
        {T : Type} (cb : CircuitBreaker) (calls : list (Call T)) (t : Z) :
  state cb = open ->
  lastFailureTime cb = Some t ->
  Forall (fun c => enteredAt c - t < resetTimeoutMs (options cb)) calls ->
  executeAll cb calls = cb
  /\ Forall (fun c => attemptedIn (execute cb c) = None) calls.
Proof. apply executeAll_rejected. Qed.

Lemma open_breaker_rejects_all_witness :
  let cb := executeAll (new Examples.twoFailures)
                       [Examples.failingAt 0 10; Examples.failingAt 20 30] in
  let calls := [Examples.failingAt 100 110; Examples.failingAt 900 910] in
  (state cb = open /\ lastFailureTime cb = Some 30)
  /\ executeAll cb calls = cb.
Proof.
  intros cb calls. split; [split; reflexivity|].
  apply (open_breaker_rejects_all cb calls 30); [reflexivity | reflexivity |].
  repeat constructor.
Defined.

(** X24.  As long as no [failureThreshold] calls in a row fail, a new
    breaker stays closed and its failure count is the number of failing
    calls since the last success: a success in between resets the count. *)
Theorem breaker_counts_consecutive_failures
        {T : Type} (opts : CircuitBreakerOptions) (calls : list (Call T)) :
  staysBelow (failureThreshold opts) 0 calls = true ->
  state (executeAll (new opts) calls) = closed
  /\ failures (executeAll (new opts) calls) = trailingFailures 0 calls.
Proof.
  intros Hbelow.
  apply (executeAll_below calls (new opts) eq_refl Hbelow).
Qed.

Lemma breaker_counts_consecutive_failures_witness :
  let succeeding := {| enteredAt := 40; operation := Ok 1; settledAt := 50 |} in
  let calls := [Examples.failingAt 0 10; succeeding; Examples.failingAt 60 70] in
  staysBelow (failureThreshold Examples.twoFailures) 0 calls = true
  /\ state (executeAll (new Examples.twoFailures) calls) = closed
  /\ failures (executeAll (new Examples.twoFailures) calls) = 1%nat.
Proof.
  intros succeeding calls. split; [reflexivity|].
  apply (breaker_counts_consecutive_failures Examples.twoFailures calls).
  reflexivity.
Defined.

End BreakerInvariants.

(** ** Nested access and flattening *)

Module BuiltinFacts.
Import Js Resolver Builtin.

(** *** Assignments in a row *)

Lemma existsb_keys k (o : Params) :
  existsb (String.eqb k) (map fst o) = obj_has k o.
Proof.
  induction o as [|[k0 v0] o IH]; cbn; [reflexivity|].
  destruct (String.eqb k k0); [reflexivity | exact IH].
Qed.

Lemma assign_all_app l1 l2 acc :
  assign_all (l1 ++ l2) acc = assign_all l2 (assign_all l1 acc).
Proof. unfold assign_all. apply fold_left_app. Qed.

Lemma assign_all_has l :
  forall acc k, obj_has k (assign_all l acc) = obj_has k acc || obj_has k l.
Proof.
  induction l as [|[k0 v0] l IH]; intros acc k; cbn [obj_has].
  - rewrite orb_false_r. reflexivity.
  - unfold assign_all in *. cbn [fold_left fst snd]. rewrite IH.
    destruct (String.eqb_spec k k0) as [->|Hne].
    + rewrite JsFacts.obj_has_set_same, orb_true_r. reflexivity.
    + rewrite InvocationFacts.obj_has_set_other by exact Hne. reflexivity.
Qed.

Lemma assign_all_get_absent l :
  forall acc k, obj_has k l = false -> obj_get k (assign_all l acc) = obj_get k acc.
Proof.
  induction l as [|[k0 v0] l IH]; intros acc k Hk; [reflexivity|].
  cbn [obj_has] in Hk. destruct (String.eqb k k0) eqn:Hne; [discriminate|].
  apply String.eqb_neq in Hne.
  unfold assign_all in *. cbn [fold_left fst snd]. rewrite IH by exact Hk.
  apply InvocationFacts.obj_get_set_other, Hne.
Qed.

Lemma assign_all_get_present l :
  forall acc k,
    distinctKeys (map fst l) = true -> obj_has k l = true ->
    obj_get k (assign_all l acc) = obj_get k l.
Proof.
  induction l as [|[k0 v0] l IH]; intros acc k Hd Hk; [discriminate|].
  cbn [map fst distinctKeys] in Hd. apply andb_true_iff in Hd as [Hfresh Hd].
  apply negb_true_iff in Hfresh. rewrite existsb_keys in Hfresh.
  cbn [obj_has obj_get] in *. unfold assign_all in *. cbn [fold_left fst snd].
  destruct (String.eqb_spec k k0) as [->|Hne].
  - fold (assign_all l (obj_set k0 v0 acc)).
    rewrite assign_all_get_absent by exact Hfresh.
    apply JsFacts.obj_get_set_same.
  - apply IH; assumption.
Qed.

Lemma distinctKeys_obj_set k v (o : Params) :
  distinctKeys (map fst o) = true -> distinctKeys (map fst (obj_set k v o)) = true.
Proof.
  induction o as [|[k0 v0] o IH]; intros Hd; [reflexivity|].
  cbn [map fst distinctKeys] in Hd. apply andb_true_iff in Hd as [Hfresh Hd].
  cbn [obj_set]. destruct (String.eqb_spec k k0) as [->|Hne].
  - cbn [map fst distinctKeys]. rewrite Hfresh, Hd. reflexivity.
  - cbn [map fst distinctKeys]. rewrite (IH Hd), andb_true_r.
    rewrite existsb_keys in *.
    rewrite InvocationFacts.obj_has_set_other by congruence. exact Hfresh.
Qed.

Lemma assign_all_distinctKeys l :
  forall acc,
    distinctKeys (map fst acc) = true ->
    distinctKeys (map fst (assign_all l acc)) = true.
Proof.
  induction l as [|[k0 v0] l IH]; intros acc Hd; [exact Hd|].
  unfold assign_all in *. cbn [fold_left fst snd].
  apply IH, distinctKeys_obj_set, Hd.
Qed.

(** In a row of blocks of assignments, each with distinct names, what ends
    up under a name is what one of the blocks holds under it. *)
Lemma assign_concat_get (blocks : list Params) :
  Forall (fun b => distinctKeys (map fst b) = true) blocks ->
  forall acc k,
    obj_has k (concat blocks) = true ->
    exists b, In b blocks /\ obj_has k b = true
              /\ obj_get k (assign_all (concat blocks) acc) = obj_get k b.
Proof.
  induction 1 as [|b rest Hb _ IH]; intros acc k Hk; [discriminate|].
  cbn [concat] in *. rewrite assign_all_app.
  destruct (obj_has k (concat rest)) eqn:Hrest.
  - destruct (IH (assign_all b acc) k Hrest) as (b' & Hin & Hhas & Hget).
    exists b'. split; [right; exact Hin | auto].
  - rewrite JsFacts.obj_has_app, Hrest, orb_false_r in Hk.
    exists b. split; [left; reflexivity|]. split; [exact Hk|].
    rewrite assign_all_get_absent by exact Hrest.
    apply assign_all_get_present; assumption.
Qed.

Lemma obj_set_values (P : value -> Prop) k v (o : Params) :
  P v -> Forall (fun kv => P (snd kv)) o ->
  Forall (fun kv => P (snd kv)) (obj_set k v o).
Proof.
  intros Hv. induction 1 as [|[k0 v0] o H0 Ho IH]; cbn [obj_set].
  - repeat constructor. exact Hv.
  - destruct (String.eqb k k0); constructor; auto.
Qed.

Lemma assign_all_values (P : value -> Prop) l :
  forall acc,
    Forall (fun kv => P (snd kv)) l -> Forall (fun kv => P (snd kv)) acc ->
    Forall (fun kv => P (snd kv)) (assign_all l acc).
Proof.
  induction l as [|[k0 v0] l IH]; intros acc Hl Hacc; [exact Hacc|].
  inversion Hl as [|? ? H0 Hl']; subst.
  unfold assign_all in *. cbn [fold_left fst snd].
  apply IH; [exact Hl' | apply obj_set_values; assumption].
Qed.

(** *** Paths *)

Lemma split_cons sep c rest :
  split sep (String c rest)
  = if Ascii.eqb c sep then EmptyString :: split sep rest
    else match split sep rest with
         | part :: parts => String c part :: parts
         | [] => [String c EmptyString]
         end.
Proof. reflexivity. Qed.

Lemma split_nonempty sep s : split sep s <> [].
Proof.
  destruct s as [|c s]; [discriminate|]. rewrite split_cons.
  destruct (Ascii.eqb c sep); [discriminate|].
  destruct (split sep s); discriminate.
Qed.

Lemma split_app sep a b :
  split sep (a ++ String sep b) = (split sep a ++ split sep b)%list.
Proof.
  induction a as [|c a IH].
  - change (split sep (String sep b) = EmptyString :: split sep b).
    rewrite split_cons, Ascii.eqb_refl. reflexivity.
  - change (split sep (String c (a ++ String sep b))
            = (split sep (String c a) ++ split sep b)%list).
    rewrite !split_cons, IH.
    destruct (Ascii.eqb c sep); [reflexivity|].
    pose proof (split_nonempty sep a) as Hne.
    destruct (split sep a); [congruence | reflexivity].
Qed.

Lemma split_plain k :
  existsb (Ascii.eqb "."%char) (AutomationAgent.chars k) = false ->
  split "."%char k = [k].
Proof.
  induction k as [|c k IH]; [reflexivity|].
  change (AutomationAgent.chars (String c k)) with (c :: AutomationAgent.chars k).
  cbn [existsb]. intros H. apply orb_false_iff in H as [Hc Hk].
  rewrite split_cons, Ascii.eqb_sym, Hc, (IH Hk). reflexivity.
Qed.

Lemma walk_undefined parts : walk VUndefined parts = VUndefined.
Proof. destruct parts; reflexivity. Qed.

Lemma walk_app ps :
  forall current qs, walk current (ps ++ qs) = walk (walk current ps) qs.
Proof.
  induction ps as [|p ps IH]; intros current qs; [reflexivity|].
  cbn [app walk].
  destruct current; try (rewrite walk_undefined; reflexivity); apply IH.
Qed.

(** X25.  Nested access composes: reading the path [p.q] is reading [q] in
    what reading [p] gives, for every value and all paths; in particular
    it is [undefined] as soon as [p] leads to nothing or to something that
    is no object. *)
Theorem getNestedValue_composes (obj : value) (p q : string) :
  getNestedValue obj (p ++ "." ++ q) = getNestedValue (getNestedValue obj p) q.
Proof.
  unfold getNestedValue.
  change (p ++ "." ++ q) with (p ++ String "."%char q).
  rewrite split_app. apply walk_app.
Qed.

(** *** Flattening *)

Lemma flattenEntry_object newKey fields :
  flattenEntry newKey (VObj fields) = flattenObject fields newKey.
Proof. reflexivity. Qed.

Lemma flattenEntry_distinct newKey v :
  distinctKeys (map fst (flattenEntry newKey v)) = true.
Proof.
  destruct v; try reflexivity.
  rewrite flattenEntry_object. apply assign_all_distinctKeys. reflexivity.
Qed.

Lemma flattenEntry_flat v :
  forall newKey,
    Forall (fun kv => isPlainObject (snd kv) = false) (flattenEntry newKey v).
Proof.
  induction v as [ | | b | n | s | items IH | fields IH ]
    using ResolverFacts.value_deep_ind;
    intros newKey; try (repeat constructor).
  cbn [flattenEntry].
  apply (assign_all_values (fun v => isPlainObject v = false)); [|constructor].
  induction IH as [|[k v] rest Hv _ IHrest]; cbn [map concat]; [constructor|].
  apply Forall_app. split; [apply Hv | exact IHrest].
Qed.

Lemma flattenObject_flat_identity (o : Params) :
  distinctKeys (map fst o) = true ->
  Forall (fun kv => isPlainObject (snd kv) = false) o ->
  flattenObject o "" = o.
Proof.
  intros Hd Hflat. unfold flattenObject.
  assert (concat (map (fun kv => flattenEntry (joinKey "" (fst kv)) (snd kv)) o) = o)
    as ->; [|apply ResolverFacts.assign_all_fresh, Hd].
  clear Hd. induction Hflat as [|[k v] rest Hv _ IH]; [reflexivity|].
  cbn [map concat fst snd]. rewrite IH. cbn in Hv.
  destruct v; try reflexivity. discriminate.
Qed.

(** X26.  What [flattenObject] returns is flat: none of its values is a
    plain object, and each name occurs once.  Flattening it again changes
    nothing. *)
Theorem flattenObject_is_flat_and_idempotent (obj : Params) (prefix : string) :
  Forall (fun kv => isPlainObject (snd kv) = false) (flattenObject obj prefix)
  /\ distinctKeys (map fst (flattenObject obj prefix)) = true
  /\ flattenObject (flattenObject obj prefix) "" = flattenObject obj prefix.
Proof.
  assert (Hflat : Forall (fun kv => isPlainObject (snd kv) = false)
                         (flattenObject obj prefix))
    by (rewrite <- flattenEntry_object; apply flattenEntry_flat).
  assert (Hd : distinctKeys (map fst (flattenObject obj prefix)) = true)
    by (rewrite <- flattenEntry_object; apply flattenEntry_distinct).
  split; [exact Hflat|]. split; [exact Hd|].
  apply flattenObject_flat_identity; assumption.
Qed.

Lemma joinKey_parts prefix k :
  plainKey k = true ->
  joinKey prefix k <> ""
  /\ split "."%char (joinKey prefix k) = (prefixParts prefix ++ [k])%list.
Proof.
  unfold plainKey, joinKey, prefixParts. intros Hk.
  apply andb_true_iff in Hk as [Hne Hdot].
  apply negb_true_iff in Hne, Hdot. apply String.eqb_neq in Hne.
  destruct (String.eqb_spec prefix "") as [->|Hp].
  - split; [exact Hne | apply split_plain, Hdot].
  - split.
    + destruct prefix; [congruence | discriminate].
    + change (prefix ++ "." ++ k) with (prefix ++ String "."%char k).
      rewrite split_app, (split_plain k Hdot). reflexivity.
Qed.

Lemma obj_get_In (o : Params) k v :
  distinctKeys (map fst o) = true -> In (k, v) o -> obj_get k o = v.
Proof.
  induction o as [|[k0 v0] o IH]; intros Hd Hin; [destruct Hin|].
  cbn [map fst distinctKeys] in Hd. apply andb_true_iff in Hd as [Hfresh Hd].
  apply negb_true_iff in Hfresh. rewrite existsb_keys in Hfresh.
  cbn [obj_get]. destruct Hin as [E|Hin].
  - injection E as -> ->. rewrite String.eqb_refl. reflexivity.
  - destruct (String.eqb_spec k k0) as [->|Hne]; [|apply IH; assumption].
    assert (obj_has k0 o = true) as Hhas.
    { clear -Hin. induction o as [|[k1 v1] o IH]; [destruct Hin|].
      cbn. destruct Hin as [E|Hin].
      - injection E as -> ->. rewrite String.eqb_refl. reflexivity.
      - destruct (String.eqb k0 k1); [reflexivity | exact (IH Hin)]. }
    congruence.
Qed.

Lemma flattenObject_leadsBack (fields : Params) (prefix key : string) :
  Forall (fun kv => leadsBack (snd kv)) fields ->
  plainKeys (VObj fields) = true -> distinctNames (VObj fields) = true ->
  obj_has key (flattenObject fields prefix) = true ->
  exists path,
    split "."%char key = (prefixParts prefix ++ path)%list
    /\ obj_get key (flattenObject fields prefix) = walk (VObj fields) path.
Proof.
  intros IH Hplain Hdist Hkey. unfold flattenObject in *.
  rewrite assign_all_has in Hkey. cbn [obj_has orb] in Hkey.
  destruct (assign_concat_get
              (map (fun kv => flattenEntry (joinKey prefix (fst kv)) (snd kv)) fields)
              ltac:(apply Forall_forall; intros b Hb;
                    apply list_elem_of_In, in_map_iff in Hb as (kv & <- & _);
                    apply flattenEntry_distinct)
              [] key Hkey) as (b & Hin & Hhas & Hget).
  apply in_map_iff in Hin as ([k v] & <- & Hin). cbn [fst snd] in *.
  cbn [plainKeys distinctNames] in Hplain, Hdist.
  apply andb_true_iff in Hdist as [Hd Hdeep].
  rewrite forallb_forall in Hplain, Hdeep.
  specialize (Hplain (k, v) Hin). specialize (Hdeep (k, v) Hin).
  cbn [fst snd] in Hplain, Hdeep. apply andb_true_iff in Hplain as [Hk Hv].
  destruct (joinKey_parts prefix k Hk) as [Hne Hparts].
  pose proof (proj1 (Forall_forall _ _) IH (k, v)
                    (proj2 (list_elem_of_In _ _) Hin)) as Hback.
  cbn [fst snd] in Hback.
  destruct (Hback (joinKey prefix k) key Hne Hv Hdeep Hhas) as (path & Hsplit & Hwalk).
  exists (k :: path). split.
  - rewrite Hsplit, Hparts, <- app_assoc. reflexivity.
  - rewrite Hget, Hwalk. cbn [walk getProperty].
    rewrite (obj_get_In fields k v Hd Hin). reflexivity.
Qed.

Lemma flattenEntry_leadsBack v : leadsBack v.
Proof.
  induction v as [ | | b | n | s | items IH | fields IH ]
    using ResolverFacts.value_deep_ind;
    intros newKey key Hne Hplain Hdist Hkey;
    try (cbn in Hkey; destruct (String.eqb_spec key newKey) as [->|];
         [|discriminate]; exists []; rewrite app_nil_r; cbn;
         rewrite String.eqb_refl; split; reflexivity).
  rewrite flattenEntry_object in *.
  destruct (flattenObject_leadsBack fields newKey key IH Hplain Hdist Hkey)
    as (path & Hsplit & Hwalk).
  exists path. split; [|exact Hwalk].
  rewrite Hsplit. unfold prefixParts.
  destruct (String.eqb_spec newKey ""); [congruence | reflexivity].
Qed.

(** X27.  Flattening and nested access agree: for an object whose names,
    at every depth, are non-empty, free of dots and distinct within their
    object, every name of the flattened object, read as a path into the
    original, leads to the value the flattened object holds under it. *)
Theorem flattenObject_agrees_with_getNestedValue (obj : Params) (key : string) :
  plainKeys (VObj obj) = true ->
  distinctNames (VObj obj) = true ->
  obj_has key (flattenObject obj "") = true ->
  getNestedValue (VObj obj) key = obj_get key (flattenObject obj "").
Proof.
  intros Hplain Hdist Hkey.
  destruct (flattenObject_leadsBack obj "" key) as (path & Hsplit & Hwalk); auto.
  - apply Forall_forall. intros kv _. apply flattenEntry_leadsBack.
  - unfold getNestedValue. rewrite Hsplit, Hwalk. reflexivity.
Qed.

Lemma flattenObject_agrees_with_getNestedValue_witness :
  let user := [("user", VObj [("name", VStr "John");
                              ("address", VObj [("city", VStr "NYC")])])] in
  (plainKeys (VObj user) = true /\ distinctNames (VObj user) = true
   /\ obj_has "user.address.city" (flattenObject user "") = true)
  /\ getNestedValue (VObj user) "user.address.city"
     = obj_get "user.address.city" (flattenObject user "").
Proof.
  intros user. split; [repeat split; reflexivity|].
  apply (flattenObject_agrees_with_getNestedValue user "user.address.city");
    reflexivity.
Defined.

End BuiltinFacts.
